(** * genepro.evo: the evolution controller of lunar_lander_gp

    A shallow embedding of [src/genepro/evo.py] (class [Evolution]) and the
    properties of its generational loop, of its elitist replacement and of the
    gradient refinement run at initialisation.

    Conventions of the embedding.
    - Python exceptions are values of [exn]; fallible code lives in [result].
    - Python objects carry an identity [oid]; [deepcopy] allocates a fresh
      one from the counter [next_oid] kept in the controller's state.
    - Fitness values, wins, games and clock readings are floats or ints in
      the source and are only added and compared there: they are integers
      here.  Tensor entries (rewards, action values, constants) are exact
      rationals.
    - The collaborators that are not part of this file (tree generator,
      fitness function, selection, variation, replay sampling, optimiser,
      wall clock) are the fields of [Collaborators]; each takes the
      position of the call (generation, index in the batch, iteration) so
      that it may answer differently every time it is called, as a random
      or stateful Python callable does. *)

From Stdlib Require Import List ZArith QArith Lia Bool Arith Permutation Sorted.
Import ListNotations.

Close Scope Q_scope.
Set Implicit Arguments.

(** ** Exceptions and the error monad *)

Inductive exn : Set :=
| IndexError | ValueError | TypeError | RuntimeError | StatisticsError.

Inductive result (A : Type) : Type :=
| Ok (a : A)
| Raise (e : exn).

Arguments Ok {A} a.
Arguments Raise {A} e.

Definition bind {A B : Type} (m : result A) (k : A -> result B) : result B :=
  match m with
  | Ok a => k a
  | Raise e => Raise e
  end.

Notation "x <- m ;; k" := (bind m (fun x => k))
  (at level 61, m at next level, right associativity).
Notation "' pat <- m ;; k" := (bind m (fun x => match x with pat => k end))
  (at level 61, pat pattern, m at next level, right associativity).

(** ** Python lists *)

(** [l[i]] for a non-negative index. *)
Definition getitem {A : Type} (l : list A) (i : nat) : result A :=
  match nth_error l i with
  | Some x => Ok x
  | None => Raise IndexError
  end.

(** [l[i].attr = v]: the object at index [i] is updated in place. *)
Definition update_at {A : Type} (i : nat) (f : A -> A) (l : list A)
  : result (list A) :=
  match nth_error l i with
  | Some x => Ok (firstn i l ++ f x :: skipn (S i) l)
  | None => Raise IndexError
  end.

(** [l[:k]]; a negative [k] counts from the end. *)
Definition slice_to {A : Type} (k : Z) (l : list A) : list A :=
  if (k <? 0)%Z then firstn (length l - Z.to_nat (- k)) l
  else firstn (Z.to_nat k) l.

(** [range(lo, hi)] for [0 <= lo]. *)
Definition range (lo hi : Z) : list nat :=
  seq (Z.to_nat lo) (Z.to_nat (hi - lo)).

(** [for i in idx: s = body(i, s)], stopping at the first exception. *)
Fixpoint for_each {I S : Type} (body : I -> S -> result S) (idx : list I) (s : S)
  : result S :=
  match idx with
  | [] => Ok s
  | i :: idx' => s' <- body i s ;; for_each body idx' s'
  end.

(** [[f(i, x) for i, x in enumerate(l)]]. *)
Fixpoint mapi_from {A B : Type} (f : nat -> A -> B) (i : nat) (l : list A)
  : list B :=
  match l with
  | [] => []
  | x :: l' => f i x :: mapi_from f (S i) l'
  end.

Definition mapi {A B : Type} (f : nat -> A -> B) (l : list A) : list B :=
  mapi_from f 0 l.

(** First index holding the largest value, with that value
    ([np.argmax]); [None] on the empty list. *)
Fixpoint first_max (l : list Z) : option (nat * Z) :=
  match l with
  | [] => None
  | x :: l' =>
      match first_max l' with
      | Some (j, y) => if (x <? y)%Z then Some (S j, y) else Some (0, x)
      | None => Some (0, x)
      end
  end.

(** First index holding the smallest value ([np.argmin]). *)
Fixpoint first_min (l : list Z) : option (nat * Z) :=
  match l with
  | [] => None
  | x :: l' =>
      match first_min l' with
      | Some (j, y) => if (y <? x)%Z then Some (S j, y) else Some (0, x)
      | None => Some (0, x)
      end
  end.

Definition argmax (l : list Z) : result nat :=
  match first_max l with
  | Some (i, _) => Ok i
  | None => Raise ValueError
  end.

Definition argmin (l : list Z) : result nat :=
  match first_min l with
  | Some (i, _) => Ok i
  | None => Raise ValueError
  end.

(** [max(l)] of the builtins. *)
Definition py_max (l : list Z) : result Z :=
  match first_max l with
  | Some (_, m) => Ok m
  | None => Raise ValueError
  end.

Definition sum_Z (l : list Z) : Z := fold_right Z.add 0%Z l.

(** [int(q)]: truncation towards zero. *)
Definition int (q : Q) : Z := Z.quot (Qnum q) (Zpos (Qden q)).

(** ** Data model *)

Definition State : Type := list Q.
Definition Action : Type := nat.

(** [Transition = namedtuple('Transition', ('state', 'action', 'next_state',
    'reward'))]; an absent [next_state] marks a terminal transition. *)
Record Transition : Type := mkTransition {
  state : State;
  action : Action;
  next_state : option State;
  reward : Q
}.

(** Modelled from the spec: the replay-memory class is not part of the
    sources.  The spec describes it as a collection of transitions that
    grows by concatenation; its [+] and [+=] are list concatenation and its
    [len] the number of transitions. *)
Definition Memory : Type := list Transition.

(** An individual: a Python object ([oid]) holding a multitree, the
    differentiable constants of its leaves and the statistics the
    controller reads and writes. *)
Record Individual (Tree : Type) : Type := mkIndividual {
  oid : nat;
  tree : Tree;
  consts : list Q;
  fitness : Z;
  games : Z;
  wins : Z
}.

Arguments mkIndividual {Tree} oid tree consts fitness games wins.

(** What one call of the fitness function returns:
    [(fitness, replay_contribution, wins, games)]. *)
Record Eval : Type := mkEval {
  ev_fitness : Z;
  ev_memory : Memory;
  ev_wins : Z;
  ev_games : Z
}.

(** [list(map(list, zip( *fitnesses)))]: the four columns of a batch of
    results.  The transposition of an empty batch is the empty list, and the
    access [fitnesses[1]] that follows it in the source raises. *)
Record Columns : Type := mkColumns {
  col_fitness : list Z;
  col_memory : list Memory;
  col_wins : list Z;
  col_games : list Z
}.

Definition transpose (rs : list Eval) : result Columns :=
  match rs with
  | [] => Raise IndexError
  | _ => Ok (mkColumns (map ev_fitness rs) (map ev_memory rs)
                       (map ev_wins rs) (map ev_games rs))
  end.

(** The evaluation rounds: the initial batch, and in generation [g] the
    elite batch and the offspring batch.  [harder] records whether
    [initSeeds(True)] was requested before the round. *)
Inductive round : Set :=
| RInit
| RElite (g : Z) (harder : bool)
| ROffspring (g : Z) (harder : bool).

Section Objects.
Context {Tree : Type}.

Definition with_oid (n : nat) (x : Individual Tree) : Individual Tree :=
  mkIndividual n (tree x) (consts x) (fitness x) (games x) (wins x).

Definition set_fitness (f : Z) (x : Individual Tree) : Individual Tree :=
  mkIndividual (oid x) (tree x) (consts x) f (games x) (wins x).

Definition set_consts (c : list Q) (x : Individual Tree) : Individual Tree :=
  mkIndividual (oid x) (tree x) c (fitness x) (games x) (wins x).

(** [x.games += g]. *)
Definition add_games (g : Z) (x : Individual Tree) : Individual Tree :=
  mkIndividual (oid x) (tree x) (consts x) (fitness x) (games x + g)%Z (wins x).

(** [x.wins += w]. *)
Definition add_wins (w : Z) (x : Individual Tree) : Individual Tree :=
  mkIndividual (oid x) (tree x) (consts x) (fitness x) (games x) (wins x + w)%Z.

(** [copy.deepcopy(x)] allocated at address [n]. *)
Definition deepcopy (n : nat) (x : Individual Tree) : Individual Tree :=
  with_oid n x.

(** [deepcopy(l)] of a list: its elements get consecutive addresses. *)
Definition deepcopy_list (n : nat) (l : list (Individual Tree))
  : list (Individual Tree) :=
  mapi (fun i x => deepcopy (n + i) x) l.

(** [l.remove(x)]: drops the first element that is [x]; objects without
    an [__eq__] of their own compare by identity. *)
Fixpoint list_remove (x : Individual Tree) (l : list (Individual Tree))
  : result (list (Individual Tree)) :=
  match l with
  | [] => Raise ValueError
  | y :: l' =>
      if Nat.eqb (oid y) (oid x) then Ok l'
      else l'' <- list_remove x l' ;; Ok (y :: l'')
  end.

(** [sorted(l, key=lambda x: x.fitness, reverse=True)]: a stable sort,
    highest fitness first. *)
Fixpoint insert_desc (x : Individual Tree) (l : list (Individual Tree))
  : list (Individual Tree) :=
  match l with
  | [] => [x]
  | y :: l' =>
      if (fitness x <? fitness y)%Z then y :: insert_desc x l' else x :: l
  end.

Definition sorted_desc (l : list (Individual Tree)) : list (Individual Tree) :=
  fold_right insert_desc [] l.

Definition fitnesses_of (l : list (Individual Tree)) : list Z :=
  map (@fitness Tree) l.
End Objects.

(** ** Collaborators *)

(** The callables the controller is configured with or imports.  [output]
    is the forward evaluation of a multitree with given constants on one
    state (one action value per tree); [optimizer_step] stands for the loss,
    its backward pass, the gradient clipping and the AdamW update, and
    returns the new values of the champion's constants. *)
Record Collaborators (Tree : Type) : Type := mkCollaborators {
  generate_random_multitree : nat -> Individual Tree;
  fitness_function : round -> nat -> Individual Tree -> Eval;
  sel_fun : Z -> list (Individual Tree) -> nat -> list (Individual Tree);
  generate_offspring :
    Z -> nat -> Individual Tree -> list (Individual Tree) -> Individual Tree;
  output : Tree -> list Q -> State -> list Q;
  sample : nat -> Memory -> nat -> list Transition;
  OptState : Type;
  adamw : list Q -> OptState;
  optimizer_step :
    OptState -> Individual Tree -> list State -> list Action ->
    list Q -> list Q -> OptState * list Q;
  time : nat -> Z
}.

(** ** The controller's attributes *)

Record Config : Type := mkConfig {
  pop_size : nat;
  elitism : Q;
  max_evals : option Z;
  max_gens : option Z;
  max_time : option Z;
  verbose : bool
}.

(** [next_oid] and [clock] belong to the embedding: the next free object
    address and the number of clock readings taken so far. *)
Record Evolution (Tree : Type) : Type := mkEvolution {
  config : Config;
  population : list (Individual Tree);
  num_gens : Z;
  num_evals : Z;
  start_time : Z;
  elapsed_time : Z;
  best_of_gens : list (Individual Tree);
  bestFitnesses : list Z;
  memory : option Memory;
  next_oid : nat;
  clock : nat
}.

Arguments mkEvolution {Tree}.

(** ** Tensor operations used by the gradient refinement *)

Definition batch_size : nat := 128.
Definition GAMMA : Q := 99 # 100.
Definition refinement_iterations : nat := 500.

(** [torch.cat(tensors)] of one-row tensors: the rows stacked; raises on an
    empty list. *)
Definition torch_cat {A : Type} (tensors : list A) : result (list A) :=
  match tensors with
  | [] => Raise RuntimeError
  | _ => Ok tensors
  end.

Definition is_not_None {A : Type} (o : option A) : bool :=
  match o with
  | Some _ => true
  | None => false
  end.

(** [[s for s in batch.next_state if s is not None]]. *)
Fixpoint non_final (l : list (option State)) : list State :=
  match l with
  | [] => []
  | Some s :: l' => s :: non_final l'
  | None :: l' => non_final l'
  end.

Definition qmax (a b : Q) : Q := if Qle_bool a b then b else a.

(** [row.max()] of a row of action values. *)
Definition row_max (row : list Q) : result Q :=
  match row with
  | [] => Raise RuntimeError
  | x :: r => Ok (fold_left qmax r x)
  end.

(** [rows.max(1)[0]]. *)
Fixpoint max_1 (rows : list (list Q)) : result (list Q) :=
  match rows with
  | [] => Ok []
  | r :: rows' => m <- row_max r ;; ms <- max_1 rows' ;; Ok (m :: ms)
  end.

(** [rows.gather(1, actions)]: the entry of each row at its action. *)
Fixpoint gather (rows : list (list Q)) (actions : list Action)
  : result (list Q) :=
  match rows, actions with
  | [], [] => Ok []
  | r :: rows', a :: actions' =>
      v <- match nth_error r a with
           | Some v => Ok v
           | None => Raise RuntimeError
           end ;;
      vs <- gather rows' actions' ;; Ok (v :: vs)
  | _, _ => Raise RuntimeError
  end.

(** [dst[mask] = vals]: the entries of [dst] at the true positions of
    [mask] are replaced, in order, by [vals]. *)
Fixpoint masked_assign (dst : list Q) (mask : list bool) (vals : list Q)
  : result (list Q) :=
  match dst, mask with
  | [], [] =>
      match vals with
      | [] => Ok []
      | _ :: _ => Raise RuntimeError
      end
  | d :: dst', true :: mask' =>
      match vals with
      | v :: vals' => r <- masked_assign dst' mask' vals' ;; Ok (v :: r)
      | [] => Raise RuntimeError
      end
  | d :: dst', false :: mask' =>
      r <- masked_assign dst' mask' vals ;; Ok (d :: r)
  | _, _ => Raise IndexError
  end.

(** [(values * GAMMA) + rewards], elementwise on equal shapes. *)
Fixpoint discounted_plus (values rewards : list Q) : result (list Q) :=
  match values, rewards with
  | [], [] => Ok []
  | v :: values', r :: rewards' =>
      rest <- discounted_plus values' rewards' ;;
      Ok ((v * GAMMA + r)%Q :: rest)
  | _, _ => Raise RuntimeError
  end.

(** ** The controller *)

Section Controller.
Context {Tree : Type} (W : Collaborators Tree).

Local Abbreviation Ind := (Individual Tree).

(** An address above those of the objects the caller hands over. *)
Definition fresh_address (l : list Ind) : nat :=
  fold_right (fun x n => Nat.max (S (oid x)) n) 0 l.

(** [Evolution.__init__]: the state variables after construction. *)
Definition __init__ (cfg : Config) (initialPopulation : list Ind)
  : Evolution Tree :=
  mkEvolution cfg initialPopulation 0%Z 0%Z 0%Z 0%Z []
              [(-1000)%Z; (-700)%Z] None (fresh_address initialPopulation) 0.

(** [bound and value >= bound]: [None] and [0] are falsy. *)
Definition bound_reached (bound : option Z) (value : Z) : bool :=
  match bound with
  | Some b => negb (b =? 0)%Z && (b <=? value)%Z
  | None => false
  end.

(** [Evolution._must_terminate]; it stores the elapsed time. *)
Definition _must_terminate (st : Evolution Tree) : bool * Evolution Tree :=
  let elapsed := (time W (clock st) - start_time st)%Z in
  let st' :=
    mkEvolution (config st) (population st) (num_gens st) (num_evals st)
                (start_time st) elapsed (best_of_gens st) (bestFitnesses st)
                (memory st) (next_oid st) (S (clock st)) in
  (if bound_reached (max_time (config st)) elapsed then true
   else if bound_reached (max_evals (config st)) (num_evals st) then true
   else if bound_reached (max_gens (config st)) (num_gens st) then true
   else false,
   st').

(** *** Gradient refinement (the body of the loop of 500 iterations) *)

(** Modelled from the spec: the tree library is not part of the sources.
    Its batched forward evaluation [get_output_pt] yields one row of
    action values per input row. *)
Definition get_output_pt (t : Ind) (batch : list State) : list (list Q) :=
  map (output W (tree t) (consts t)) batch.

Record Minibatch : Type := mkMinibatch {
  target_tree : Ind;
  transitions : list Transition;
  non_final_mask : list bool;
  state_action_values : list Q;
  next_state_values : list Q;
  expected_state_action_values : list Q
}.

(** Lines 214 to 233: the target snapshot, the sampled transitions, the
    predicted values and the target values of iteration [k]; [heap] is the
    address the snapshot is allocated at. *)
Definition minibatch (k : nat) (best : Ind) (heap : nat) (mem : Memory)
  : result Minibatch :=
  let target := deepcopy heap best in
  let sampled := sample W k mem batch_size in
  match sampled with
  | [] => Raise TypeError
  | _ :: _ =>
      let mask := map (@is_not_None State) (map next_state sampled) in
      non_final_next_states <-
        torch_cat (non_final (map next_state sampled)) ;;
      state_batch <- torch_cat (map state sampled) ;;
      action_batch <- torch_cat (map action sampled) ;;
      reward_batch <- torch_cat (map reward sampled) ;;
      predicted <- gather (get_output_pt best state_batch) action_batch ;;
      let zeros := repeat 0%Q batch_size in
      maxima <- max_1 (get_output_pt target non_final_next_states) ;;
      values <- masked_assign zeros mask maxima ;;
      expected <- discounted_plus values reward_batch ;;
      Ok (mkMinibatch target sampled mask predicted values expected)
  end.

Record Refiner : Type := mkRefiner {
  champion : Ind;
  optimizer : OptState W;
  heap_next : nat
}.

(** One pass through the loop body.  [nconsts] is [len(constants)]: the
    list is taken once, before the loop, and the optimiser changes its
    tensors in place. *)
Definition refine_iteration (nconsts : nat) (mem : Memory) (k : nat)
    (rs : Refiner) : result Refiner :=
  if (0 <? nconsts) && (batch_size <? length mem) then
    mb <- minibatch k (champion rs) (heap_next rs) mem ;;
    let '(opt, constants) :=
      optimizer_step W (optimizer rs) (champion rs)
                     (map state (transitions mb))
                     (map action (transitions mb))
                     (state_action_values mb)
                     (expected_state_action_values mb) in
    Ok (mkRefiner (set_consts constants (champion rs)) opt
                  (S (heap_next rs)))
  else Ok rs.

Definition refine (best : Ind) (heap : nat) (mem : Memory) : result Refiner :=
  for_each (refine_iteration (length (consts best)) mem)
           (seq 0 refinement_iterations)
           (mkRefiner best (adamw W (consts best)) heap).

(** *** Initialisation *)

(** The random trees of the initial population, as new objects. *)
Definition random_population (st : Evolution Tree) : list Ind :=
  mapi (fun i x => with_oid (next_oid st + i) x)
       (map (generate_random_multitree W) (seq 0 (pop_size (config st)))).

(** [for i in range(count): l[i].fitness = fitnesses[i]]. *)
Definition store_fitness (fitnesses : list Z) (count : Z) (l : list Ind)
  : result (list Ind) :=
  for_each (fun i l' =>
              f <- getitem fitnesses i ;; update_at i (set_fitness f) l')
           (range 0 count) l.

(** [Evolution._initialize_population]. *)
Definition _initialize_population (st : Evolution Tree)
  : result (Evolution Tree) :=
  let n := pop_size (config st) in
  let population0 := random_population st in
  let heap := next_oid st + n in
  cols <- transpose (mapi (fitness_function W RInit) population0) ;;
  let mem := concat (col_memory cols) in
  population1 <- store_fitness (col_fitness cols) (Z.of_nat n) population0 ;;
  ibest <- argmax (fitnesses_of population1) ;;
  best <- getitem population1 ibest ;;
  rs <- refine best heap mem ;;
  (* [best] is an element of the population: the refinement changed its
     constants in place *)
  population2 <- update_at ibest (fun _ => champion rs) population1 ;;
  Ok (mkEvolution (config st) population2 (num_gens st)
                  (num_evals st + Z.of_nat n)%Z
                  (start_time st) (elapsed_time st)
                  (best_of_gens st ++ [deepcopy (heap_next rs) (champion rs)])
                  (bestFitnesses st) (Some mem)
                  (S (heap_next rs)) (clock st)).

(** *** One generation *)

(** [int(self.elitism * self.pop_size)]. *)
Definition elite_count (cfg : Config) : Z :=
  int (elitism cfg * inject_Z (Z.of_nat (pop_size cfg)))%Q.

(** [deepcopy(sorted(population, key=fitness, reverse=True)[:elite_count])]. *)
Definition snapshot_elites (st : Evolution Tree) : list Ind :=
  deepcopy_list (next_oid st)
    (slice_to (elite_count (config st)) (sorted_desc (population st))).

Definition select_parents (st : Evolution Tree) : list Ind :=
  sel_fun W (num_gens st) (population st) (pop_size (config st)).

(** One offspring per parent, each a new object. *)
Definition produce_offspring (st : Evolution Tree) : list Ind :=
  let parents := select_parents st in
  mapi (fun i t =>
          with_oid (next_oid st + length (snapshot_elites st) + i)
                   (generate_offspring W (num_gens st) i t parents))
       parents.

(** The first free address once elites and offspring exist. *)
Definition heap_after_offspring (st : Evolution Tree) : nat :=
  next_oid st + length (snapshot_elites st) + length (produce_offspring st).

(** The test in front of [initSeeds(True)]: best fitness above 150 and
    mean fitness above 20. *)
Definition harder (pop : list Ind) : result bool :=
  i <- argmax (fitnesses_of pop) ;;
  b <- getitem pop i ;;
  Ok ((150 <? fitness b)%Z
      && (20 * Z.of_nat (length pop) <? sum_Z (fitnesses_of pop))%Z).

(** [for i in range(count): l[i].fitness = fitnesses[0][i];
    l[i].games += fitnesses[3][i]; l[i].wins += fitnesses[2][i]]. *)
Definition store_results (cols : Columns) (count : Z) (l : list Ind)
  : result (list Ind) :=
  for_each (fun i l' =>
              f <- getitem (col_fitness cols) i ;;
              l1 <- update_at i (set_fitness f) l' ;;
              g <- getitem (col_games cols) i ;;
              l2 <- update_at i (add_games g) l1 ;;
              w <- getitem (col_wins cols) i ;;
              update_at i (add_wins w) l2)
           (range 0 count) l.

(** Lines 275 to 291: the elites are evaluated again; the replay
    contributions of the round are read into locals that line 302
    overwrites. *)
Definition evaluate_elites (st : Evolution Tree) (hard : bool)
  : result (list Ind) :=
  let elites := snapshot_elites st in
  cols <- transpose
            (mapi (fitness_function W (RElite (num_gens st) hard)) elites) ;;
  elites1 <- store_results cols (elite_count (config st)) elites ;;
  store_fitness (col_fitness cols) (elite_count (config st)) elites1.

(** Lines 296 to 312: the offspring are evaluated; the result carries the
    new replay memory, [memory + self.memory].  A run that was seeded never
    set [self.memory], and the sum with [None] raises. *)
Definition evaluate_offspring (st : Evolution Tree) (hard : bool)
  : result (list Ind * Memory) :=
  let offspring_population := produce_offspring st in
  cols <- transpose
            (mapi (fitness_function W (ROffspring (num_gens st) hard))
                  offspring_population) ;;
  let mem := concat (col_memory cols) in
  match memory st with
  | None => Raise TypeError
  | Some old =>
      scored <- store_results cols (Z.of_nat (pop_size (config st)))
                              offspring_population ;;
      Ok (scored, (mem ++ old)%list)
  end.

(** [lowest = pop[np.argmin([t.fitness for t in pop])]; pop.remove(lowest)]. *)
Definition remove_lowest (pop : list Ind) : result (list Ind) :=
  ilow <- argmin (fitnesses_of pop) ;;
  lowest <- getitem pop ilow ;;
  list_remove lowest pop.

(** Lines 338 to 342: the lowest is removed and [x] appended. *)
Definition replace_lowest (x : Ind) (pop : list Ind) : result (list Ind) :=
  pop' <- remove_lowest pop ;;
  Ok (pop' ++ [x]).

(** The body of [for i in range(1, elite_count)], on the population and
    the next free address. *)
Definition reinsert_elite (elites : list Ind) (i : nat)
    (s : list Ind * nat) : result (list Ind * nat) :=
  pop' <- remove_lowest (fst s) ;;
  e <- getitem elites i ;;
  Ok (pop' ++ [deepcopy (snd s) e], S (snd s)).

Definition reinsert_elites (cfg : Config) (elites : list Ind)
    (s : list Ind * nat) : result (list Ind * nat) :=
  for_each (reinsert_elite elites) (range 1 (elite_count cfg)) s.

(** [Evolution._perform_generation].  Parents, elite snapshot and
    offspring (lines 253 to 264) are the values [select_parents],
    [snapshot_elites] and [produce_offspring] of the state; the first step
    that can raise is the test of line 270. *)
Definition _perform_generation (st : Evolution Tree)
  : result (Evolution Tree) :=
  hard <- harder (population st) ;;
  elites <- evaluate_elites st hard ;;
  '(offspring_population, mem) <- evaluate_offspring st hard ;;
  '(population1, heap) <-
    reinsert_elites (config st) elites
                    (offspring_population, heap_after_offspring st) ;;
  ibest <- argmax (fitnesses_of population1) ;;
  best <- getitem population1 ibest ;;
  m <- py_max (fitnesses_of population1) ;;
  population2 <- replace_lowest (deepcopy heap best) population1 ;;
  Ok (mkEvolution (config st) population2 (num_gens st + 1)%Z
                  (num_evals st + Z.of_nat (pop_size (config st)))%Z
                  (start_time st) (elapsed_time st)
                  (best_of_gens st ++ [deepcopy (S heap) best])
                  (bestFitnesses st ++ [m]) (Some mem)
                  (S (S heap)) (clock st)).

(** *** The generational loop *)

(** The verbose report computes [statistics.stdev] and
    [statistics.variance], which need two data points. *)
Definition log_info (st : Evolution Tree) : result unit :=
  if verbose (config st) && (length (population st) <? 2)
  then Raise StatisticsError else Ok tt.

(** [while not self._must_terminate(): ...]; [None] when the fuel does not
    reach the end of the loop. *)
Fixpoint generational_loop (fuel : nat) (st : Evolution Tree)
  : option (result (Evolution Tree)) :=
  match fuel with
  | O => None
  | S fuel' =>
      let '(stop, st1) := _must_terminate st in
      if stop then Some (Ok st1)
      else
        match (st2 <- _perform_generation st1 ;;
               _ <- log_info st2 ;; Ok st2) with
        | Raise e => Some (Raise e)
        | Ok st2 => generational_loop fuel' st2
        end
  end.

(** The part of [evolve] in front of the loop: the start time is read
    and an empty population is initialised. *)
Definition evolve_begin (st : Evolution Tree) : result (Evolution Tree) :=
  let st0 :=
    mkEvolution (config st) (population st) (num_gens st) (num_evals st)
                (time W (clock st)) (elapsed_time st) (best_of_gens st)
                (bestFitnesses st) (memory st) (next_oid st)
                (S (clock st)) in
  match population st0 with
  | [] => _initialize_population st0
  | _ :: _ => Ok st0
  end.

(** [Evolution.evolve]. *)
Definition evolve (fuel : nat) (st : Evolution Tree)
  : option (result (Evolution Tree)) :=
  match evolve_begin st with
  | Raise e => Some (Raise e)
  | Ok st1 => generational_loop fuel st1
  end.
End Controller.

Arguments refine_iteration {Tree} W nconsts mem k rs.

(** ** Vocabulary of the properties *)

(** [Sub l1 l2]: [l1] is [l2] with some elements dropped, order kept. *)
Inductive Sub {A : Type} : list A -> list A -> Prop :=
| Sub_nil : Sub [] []
| Sub_skip (x : A) (l1 l2 : list A) : Sub l1 l2 -> Sub l1 (x :: l2)
| Sub_keep (x : A) (l1 l2 : list A) : Sub l1 l2 -> Sub (x :: l1) (x :: l2).

(** Addresses strictly increasing along the list, all in [[lo, hi)]. *)
Fixpoint ascending (lo : nat) (l : list nat) (hi : nat) : Prop :=
  match l with
  | [] => lo <= hi
  | x :: l' => lo <= x /\ ascending (S x) l' hi
  end.


(** Every transition of the batch is terminal. *)
Definition all_terminal (batch : list Transition) : Prop :=
  forall tr, In tr batch -> next_state tr = None.

(** A bound that [_must_terminate] never acts on: left at [None], or [0]. *)
Definition unconfigured (bound : option Z) : Prop :=
  bound = None \/ bound = Some 0%Z.

(** [m] is the largest value of [l]. *)
Definition is_max (m : Z) (l : list Z) : Prop :=
  In m l /\ forall z, In z l -> (z <= m)%Z.

Definition delete_at {A : Type} (i : nat) (l : list A) : list A :=
  firstn i l ++ skipn (S i) l.

Section Vocabulary.
Context {Tree : Type}.

Local Abbreviation Ind := (Individual Tree).

(** The population without its first lowest-fitness individual. *)
Definition delete_lowest (pop : list Ind) : list Ind :=
  match first_min (fitnesses_of pop) with
  | Some (i, _) => delete_at i pop
  | None => pop
  end.

(** The population after the individuals [xs] were inserted one after the
    other, each in exchange for the lowest of the moment. *)
Definition replace_all (pop xs : list Ind) : list Ind :=
  fold_left (fun p x => delete_lowest p ++ [x]) xs pop.

(** [y] is a deep copy of [x]: another object with the same tree, the same
    constants and the same statistics. *)
Definition copy_of (x y : Ind) : Prop :=
  tree y = tree x /\ consts y = consts x /\ fitness y = fitness x /\
  games y = games x /\ wins y = wins x.



(** No individual of the population lives at or above the next free
    address. *)
Definition heap_ok (pop : list Ind) (next : nat) : Prop :=
  forall x, In x pop -> oid x < next.

(** [x] after the result [r] of its evaluation was stored:
    [x.fitness = r[0]; x.games += r[3]; x.wins += r[2]]. *)
Definition scored (r : Eval) (x : Ind) : Ind :=
  add_wins (ev_wins r) (add_games (ev_games r) (set_fitness (ev_fitness r) x)).


(** What evaluation leaves untouched: identity, tree and constants. *)
Definition ident (x : Ind) : nat * Tree * list Q := (oid x, tree x, consts x).
End Vocabulary.

(** The values one generation goes through, for the statements below. *)
Section Outcome.
Context {Tree : Type} (W : Collaborators Tree).

Local Abbreviation Ind := (Individual Tree).

(** The elites the loop [for i in range(1, elite_count)] reads. *)
Definition reinserted (cfg : Config) (elites : list Ind) : list Ind :=
  firstn (Z.to_nat (elite_count cfg - 1)) (skipn 1 elites).

(** The deep copies the loop appends. *)
Definition elite_copies (st : Evolution Tree) (elites : list Ind) : list Ind :=
  deepcopy_list (heap_after_offspring W st) (reinserted (config st) elites).

(** The population when the loop is left. *)
Definition after_reinsertion (st : Evolution Tree) (elites offspring : list Ind)
  : list Ind :=
  replace_all offspring (elite_copies st elites).

(** The first free address when the loop is left. *)
Definition heap_after_reinsertion (st : Evolution Tree) : nat :=
  heap_after_offspring W st + Z.to_nat (elite_count (config st) - 1).

(** The results the offspring round gets from the fitness function. *)
Definition offspring_results (st : Evolution Tree) (hard : bool) : list Eval :=
  mapi (fitness_function W (ROffspring (num_gens st) hard))
       (produce_offspring W st).

(** The states in which a run started from [st0] stands at the head of its
    generational loop: after the part of [evolve] in front of the loop, and
    after each generation that the termination test lets through and that
    completes, report included. *)
Inductive boundary (st0 : Evolution Tree) : Evolution Tree -> Prop :=
| boundary_first (st : Evolution Tree) :
    evolve_begin W st0 = Ok st -> boundary st0 st
| boundary_next (st st1 st2 : Evolution Tree) :
    boundary st0 st ->
    _must_terminate W st = (false, st1) ->
    _perform_generation W st1 = Ok st2 ->
    log_info st2 = Ok tt ->
    boundary st0 st2.

(** The results the initial round gets from the fitness function. *)
Definition initial_results (st : Evolution Tree) : list Eval :=
  mapi (fitness_function W RInit) (random_population W st).

(** The replay memory aggregated at initialisation. *)
Definition initial_memory (st : Evolution Tree) : Memory :=
  concat (map ev_memory (initial_results st)).

(** The initial population with its fitness stored. *)
Definition evaluated_population (st : Evolution Tree) : result (list Ind) :=
  store_fitness (map ev_fitness (initial_results st))
                (Z.of_nat (pop_size (config st))) (random_population W st).

(** The results the elite round gets from the fitness function. *)
Definition elite_results (st : Evolution Tree) (hard : bool) : list Eval :=
  mapi (fitness_function W (RElite (num_gens st) hard)) (snapshot_elites st).
End Outcome.

(** ** Concrete runs *)

(** Collaborators over trees named by numbers, with scripted fitness
    values; they drive the runs the properties below are evaluated on. *)
Module Scenario.

Definition blank (t : nat) : Individual nat := mkIndividual 0 t [] 0%Z 0%Z 0%Z.

Definition a_transition (r : Z) : Transition :=
  mkTransition [inject_Z r] 0 None (inject_Z r).

(** Selection that cycles through the population. *)
Definition cyclic_selection (pop : list (Individual nat)) (n : nat)
  : list (Individual nat) :=
  map (fun i => nth (i mod length pop) pop (blank 0)) (seq 0 n).

(** The fitness script: [init], [elite] and [offspring] give, by position
    in the batch, the fitness reported in the three kinds of round. *)
Definition scripted (init elite offspring : list Z)
  : round -> nat -> Individual nat -> Eval :=
  fun r i _ =>
    match r with
    | RInit => mkEval (nth i init 0%Z) [a_transition 1] 0%Z 1%Z
    | RElite _ _ => mkEval (nth i elite 0%Z) [a_transition 2] 1%Z 1%Z
    | ROffspring _ _ => mkEval (nth i offspring 0%Z) [a_transition 3] 0%Z 1%Z
    end.

Definition world (init elite offspring : list Z) : Collaborators nat :=
  mkCollaborators
    (fun i => blank i)
    (scripted init elite offspring)
    (fun _ pop n => cyclic_selection pop n)
    (fun g i t _ => blank (tree t + 100))
    (fun t c s => [0%Q; 1%Q])
    (fun k mem n => firstn n mem)
    (fun c => tt)
    (fun _ best _ _ _ _ => (tt, consts best))
    (fun k => Z.of_nat k).

Definition config_of (n : nat) (e : Q) (gens : Z) : Config :=
  mkConfig n e None (Some gens) None false.

(** Two individuals, one elite: the initial champion scores 10, the
    re-evaluated elite 3, the offspring 1 and 2. *)
Definition world_a : Collaborators nat :=
  world [10; 5]%Z [3]%Z [1; 2]%Z.
Definition config_a : Config := config_of 2 (1 # 2) 1.



(** The state of a run without seed when the generational loop is entered. *)
Definition started (W : Collaborators nat) (cfg : Config) : Evolution nat :=
  match evolve_begin W (__init__ cfg []) with
  | Ok st => st
  | Raise _ => __init__ cfg []
  end.

Definition start_a : Evolution nat := started world_a config_a.

(** A run seeded with two individuals of the caller. *)
Definition seeded : Evolution nat := __init__ config_a [blank 7; blank 8].



Definition replay_of (st : Evolution nat) : Memory :=
  match memory st with
  | Some m => m
  | None => []
  end.

(** A champion with one constant, a replay memory of 129 transitions of
    which the first is terminal, and one of 129 terminal transitions. *)
Definition a_step : Transition :=
  mkTransition [1%Q] 1 (Some [2%Q]) (1 # 2).
Definition refiner_r : Refiner world_a :=
  mkRefiner world_a (mkIndividual 0 7 [1%Q] 0%Z 0%Z 0%Z) tt 1.
Definition memory_r : Memory := a_transition 1 :: repeat a_step 128.
Definition memory_t : Memory := repeat (a_transition 1) 129.

(** Configurations of two individuals and one elite with other bounds: a
    generation bound of 0, and an evaluation bound of 5 alone. *)
Definition config_zero : Config :=
  mkConfig 2 (1 # 2) None (Some 0%Z) None false.
Definition config_evals : Config :=
  mkConfig 2 (1 # 2) (Some 5%Z) None None false.

(** No individual at all; one individual, reported on; two individuals and
    an elitism too small for one elite. *)
Definition config_empty : Config := config_of 0 (1 # 2) 1.
Definition config_single : Config := mkConfig 1 1 None (Some 1%Z) None true.
Definition config_no_elite : Config := config_of 2 (1 # 10) 1.
End Scenario.

(** * Properties *)

Unset Implicit Arguments.

(** ** Exceptions and lists *)

Lemma bind_Ok {A B : Type} (m : result A) (k : A -> result B) (b : B) :
  bind m k = Ok b -> exists a, m = Ok a /\ k a = Ok b.
Proof.
  destruct m as [a|e]; cbn; intros H; [eauto | discriminate].
Qed.

(** Splits a successful sequence of binds into its steps. *)
Ltac unbind H :=
  repeat match type of H with
    | bind ?m _ = Ok _ =>
        let a := fresh "v" in
        let Ha := fresh "E" in
        destruct m as [a|] eqn:Ha; [cbn [bind] in H | discriminate H]
    | (let '(_, _) := ?p in _) = Ok _ =>
        let a := fresh "v" in
        let b := fresh "h" in
        destruct p as [a b]
    end.

Lemma getitem_Ok {A : Type} (l : list A) (i : nat) (x : A) :
  getitem l i = Ok x <-> nth_error l i = Some x.
Proof.
  unfold getitem. destruct (nth_error l i); split; congruence.
Qed.

Lemma getitem_lt {A : Type} (l : list A) (i : nat) :
  i < length l -> exists x, getitem l i = Ok x.
Proof.
  intros H. unfold getitem.
  destruct (nth_error l i) eqn:E; [eauto|].
  apply nth_error_None in E. lia.
Qed.

Lemma firstn_skipn_nth {A : Type} (l : list A) (i : nat) (x : A) :
  nth_error l i = Some x -> l = firstn i l ++ x :: skipn (S i) l.
Proof.
  revert i. induction l as [|y l IH]; intros [|i] H; cbn in *; try discriminate.
  - congruence.
  - f_equal. now apply IH.
Qed.

Lemma update_at_Ok {A : Type} (i : nat) (f : A -> A) (l l' : list A) :
  update_at i f l = Ok l' ->
  exists x, nth_error l i = Some x /\ l' = firstn i l ++ f x :: skipn (S i) l.
Proof.
  unfold update_at. destruct (nth_error l i) as [x|]; [|discriminate].
  intros [= <-]. eauto.
Qed.

Lemma update_at_map {A B : Type} (g : A -> B) (i : nat) (f : A -> A)
      (l l' : list A) :
  (forall x, g (f x) = g x) -> update_at i f l = Ok l' -> map g l' = map g l.
Proof.
  intros Hg H. apply update_at_Ok in H as (x & Hx & ->).
  rewrite (firstn_skipn_nth l i x Hx) at 3.
  rewrite !map_app. cbn. now rewrite Hg.
Qed.

Lemma update_at_lt {A : Type} (i : nat) (f : A -> A) (l : list A) :
  i < length l -> exists l', update_at i f l = Ok l' /\ length l' = length l.
Proof.
  intros H. unfold update_at.
  destruct (nth_error l i) as [x|] eqn:E.
  - eexists; split; [reflexivity|].
    rewrite (firstn_skipn_nth l i x E) at 3.
    rewrite !length_app. cbn. reflexivity.
  - apply nth_error_None in E. lia.
Qed.

Lemma for_each_inv {I S : Type} (P : S -> Prop) (body : I -> S -> result S)
      (idx : list I) (s s' : S) :
  (forall i a b, In i idx -> P a -> body i a = Ok b -> P b) ->
  P s -> for_each body idx s = Ok s' -> P s'.
Proof.
  revert s. induction idx as [|i idx IH]; intros s Hstep Hs H; cbn in H.
  - now injection H as <-.
  - apply bind_Ok in H as (a & Ha & H).
    apply (IH a); auto.
    + intros j x y Hj. apply Hstep. now right.
    + apply (Hstep i s a); auto. now left.
Qed.

Lemma for_each_total {I S : Type} (P : S -> Prop) (body : I -> S -> result S)
      (idx : list I) (s : S) :
  (forall i a, In i idx -> P a -> exists b, body i a = Ok b /\ P b) ->
  P s -> exists s', for_each body idx s = Ok s' /\ P s'.
Proof.
  revert s. induction idx as [|i idx IH]; intros s Hstep Hs; cbn.
  - eauto.
  - destruct (Hstep i s) as (a & Ha & HPa); [now left | assumption |].
    rewrite Ha. cbn. apply IH; auto.
    intros j x Hj. apply Hstep. now right.
Qed.

Lemma in_range (lo hi : Z) (i : nat) :
  (0 <= lo)%Z -> In i (range lo hi) -> (lo <= Z.of_nat i < hi)%Z.
Proof.
  unfold range. intros Hlo H. apply in_seq in H. lia.
Qed.

(** ** First maximum and first minimum *)

Lemma first_max_spec (l : list Z) (i : nat) (m : Z) :
  first_max l = Some (i, m) -> nth_error l i = Some m /\ is_max m l.
Proof.
  revert i m. induction l as [|x l IH]; intros i m H; cbn in H; [discriminate|].
  destruct (first_max l) as [[j y]|] eqn:E.
  - destruct (IH j y eq_refl) as (Hn & Hin & Hle).
    destruct (Z.ltb_spec x y); injection H as <- <-.
    + repeat split; [assumption | now right |].
      intros z [<-|Hz]; [lia | auto].
    + repeat split; [now left |].
      intros z [<-|Hz]; [lia | specialize (Hle z Hz); lia].
  - destruct l; [|cbn in E; destruct (first_max l) as [[? ?]|];
                   [destruct (_ <? _)%Z|]; discriminate].
    injection H as <- <-. repeat split; [now left |].
    intros z [<-|[]]. lia.
Qed.

Lemma first_min_spec (l : list Z) (i : nat) (m : Z) :
  first_min l = Some (i, m) ->
  nth_error l i = Some m /\ (forall z, In z l -> (m <= z)%Z) /\
  (forall j z, j < i -> nth_error l j = Some z -> (m < z)%Z).
Proof.
  revert i m. induction l as [|x l IH]; intros i m H; cbn in H; [discriminate|].
  destruct (first_min l) as [[j y]|] eqn:E.
  - destruct (IH j y eq_refl) as (Hn & Hle & Hfirst).
    destruct (Z.ltb_spec y x); injection H as <- <-.
    + repeat split; [assumption | |].
      * intros z [<-|Hz]; [lia | auto].
      * intros [|k] z Hk Hz; cbn in Hz.
        -- injection Hz as <-. assumption.
        -- apply (Hfirst k); [lia | assumption].
    + repeat split; [| intros; lia].
      intros z [<-|Hz]; [lia | specialize (Hle z Hz); lia].
  - destruct l; [|cbn in E; destruct (first_min l) as [[? ?]|];
                   [destruct (_ <? _)%Z|]; discriminate].
    injection H as <- <-. repeat split; [| intros; lia].
    intros z [<-|[]]. lia.
Qed.

Lemma first_max_some (l : list Z) :
  l <> [] -> exists i m, first_max l = Some (i, m).
Proof.
  destruct l as [|x l]; [congruence|]. intros _. cbn.
  destruct (first_max l) as [[j y]|]; [destruct (x <? y)%Z|]; eauto.
Qed.

Lemma first_min_some (l : list Z) :
  l <> [] -> exists i m, first_min l = Some (i, m).
Proof.
  destruct l as [|x l]; [congruence|]. intros _. cbn.
  destruct (first_min l) as [[j y]|]; [destruct (y <? x)%Z|]; eauto.
Qed.



(** ** Sublists and deletions *)

Lemma Sub_refl {A : Type} (l : list A) : Sub l l.
Proof. induction l; [apply Sub_nil | apply Sub_keep; assumption]. Qed.

Lemma Sub_nil_l {A : Type} (l : list A) : Sub [] l.
Proof. induction l; [apply Sub_nil | apply Sub_skip; assumption]. Qed.

Lemma Sub_In {A : Type} (l1 l2 : list A) (x : A) :
  Sub l1 l2 -> In x l1 -> In x l2.
Proof.
  induction 1; cbn; intros Hin; [assumption | right; auto |].
  destruct Hin; [now left | right; auto].
Qed.

Lemma Sub_length {A : Type} (l1 l2 : list A) :
  Sub l1 l2 -> length l1 <= length l2.
Proof. induction 1; cbn; lia. Qed.




Lemma Sub_map {A B : Type} (f : A -> B) (l1 l2 : list A) :
  Sub l1 l2 -> Sub (map f l1) (map f l2).
Proof.
  induction 1; cbn; [apply Sub_nil | apply Sub_skip | apply Sub_keep]; assumption.
Qed.

Lemma Sub_delete_at {A : Type} (i : nat) (l : list A) : Sub (delete_at i l) l.
Proof.
  unfold delete_at. revert i. induction l as [|x l IH]; intros [|i]; cbn.
  - apply Sub_nil.
  - apply Sub_nil.
  - apply Sub_skip. apply Sub_refl.
  - apply Sub_keep. apply IH.
Qed.


Lemma delete_at_length {A : Type} (i : nat) (l : list A) :
  i < length l -> S (length (delete_at i l)) = length l.
Proof.
  intros H. unfold delete_at. rewrite length_app, length_firstn, length_skipn. lia.
Qed.



(** ** Addresses *)

Lemma ascending_le (lo hi : nat) (l : list nat) : ascending lo l hi -> lo <= hi.
Proof.
  revert lo. induction l as [|x l IH]; cbn; intros lo H; [assumption|].
  destruct H as [H1 H2]. apply IH in H2. lia.
Qed.

Lemma ascending_weaken (lo lo' hi hi' : nat) (l : list nat) :
  lo' <= lo -> hi <= hi' -> ascending lo l hi -> ascending lo' l hi'.
Proof.
  revert lo lo'. induction l as [|x l IH]; cbn; intros lo lo' H1 H2 H; [lia|].
  destruct H as [Hx Hl]. split; [lia|]. eapply IH; eauto.
Qed.

Lemma ascending_In (lo hi : nat) (l : list nat) (x : nat) :
  ascending lo l hi -> In x l -> lo <= x < hi.
Proof.
  revert lo. induction l as [|y l IH]; cbn; intros lo H Hin; [contradiction|].
  destruct H as [Hy Hl]. destruct Hin as [<-|Hin].
  - apply ascending_le in Hl. lia.
  - specialize (IH _ Hl Hin). lia.
Qed.

Lemma ascending_snoc (lo hi : nat) (l : list nat) :
  ascending lo l hi -> ascending lo (l ++ [hi]) (S hi).
Proof.
  revert lo. induction l as [|x l IH]; cbn; intros lo H; [lia|].
  destruct H as [Hx Hl]. split; auto.
Qed.

Lemma ascending_Sub (lo hi : nat) (l l' : list nat) :
  Sub l' l -> ascending lo l hi -> ascending lo l' hi.
Proof.
  intros HS. revert lo. induction HS as [|x l1 l2 H IH|x l1 l2 H IH]; cbn; intros lo Ha.
  - assumption.
  - destruct Ha as [Hx Hl]. apply IH in Hl.
    eapply ascending_weaken; [ | | exact Hl]; lia.
  - destruct Ha as [Hx Hl]. split; auto.
Qed.

Lemma ascending_seq (lo n : nat) : ascending lo (seq lo n) (lo + n).
Proof.
  revert lo. induction n as [|n IH]; cbn; intros lo; [lia|].
  split; [lia|]. replace (lo + S n) with (S lo + n) by lia. apply IH.
Qed.

(** ** Enumerated maps and deep copies *)

Lemma mapi_from_length {A B : Type} (f : nat -> A -> B) (i : nat) (l : list A) :
  length (mapi_from f i l) = length l.
Proof. revert i. induction l; cbn; intros; [reflexivity | now rewrite IHl]. Qed.

Lemma mapi_from_ext {A B : Type} (f g : nat -> A -> B) (i : nat) (l : list A) :
  (forall j x, f j x = g j x) -> mapi_from f i l = mapi_from g i l.
Proof.
  intros H. revert i. induction l; cbn; intros; [reflexivity|].
  now rewrite H, IHl.
Qed.

Lemma mapi_from_shift {A B : Type} (f : nat -> A -> B) (i : nat) (l : list A) :
  mapi_from f (S i) l = mapi_from (fun j => f (S j)) i l.
Proof. revert i. induction l; cbn; intros; [reflexivity | now rewrite IHl]. Qed.

Lemma mapi_from_map {A B C : Type} (g : B -> C) (f : nat -> A -> B) (i : nat)
      (l : list A) :
  map g (mapi_from f i l) = mapi_from (fun j x => g (f j x)) i l.
Proof. revert i. induction l; cbn; intros; [reflexivity | now rewrite IHl]. Qed.


Lemma mapi_from_index {A : Type} (n i : nat) (l : list A) :
  mapi_from (fun j _ => n + j) i l = seq (n + i) (length l).
Proof.
  revert i. induction l; cbn; intros; [reflexivity|].
  rewrite IHl. now replace (n + S i) with (S (n + i)) by lia.
Qed.

Lemma mapi_from_nth {A B : Type} (f : nat -> A -> B) (i j : nat) (l : list A) :
  nth_error (mapi_from f i l) j = option_map (f (i + j)) (nth_error l j).
Proof.
  revert i j. induction l as [|x l IH]; intros i [|j]; cbn; try reflexivity.
  - now rewrite Nat.add_0_r.
  - rewrite IH. now replace (S i + j) with (i + S j) by lia.
Qed.

Section Copies.
Context {Tree : Type}.

Local Abbreviation Ind := (Individual Tree).

Lemma deepcopy_list_cons (h : nat) (x : Ind) (l : list Ind) :
  deepcopy_list h (x :: l) = deepcopy h x :: deepcopy_list (S h) l.
Proof.
  unfold deepcopy_list, mapi. cbn. rewrite Nat.add_0_r. f_equal.
  rewrite mapi_from_shift. apply mapi_from_ext.
  intros j y. now replace (h + S j) with (S h + j) by lia.
Qed.

Lemma deepcopy_list_length (h : nat) (l : list Ind) :
  length (deepcopy_list h l) = length l.
Proof. apply mapi_from_length. Qed.




Lemma deepcopy_copy_of (h : nat) (x : Ind) : copy_of x (deepcopy h x).
Proof. repeat split. Qed.

(** ** Removing the lowest individual *)

(** With all addresses distinct, [remove] drops the very element found by
    [argmin]. *)
Lemma list_remove_ascending (lo hi : nat) (l : list Ind) (i : nat) (x : Ind) :
  ascending lo (map (@oid Tree) l) hi -> nth_error l i = Some x ->
  list_remove x l = Ok (delete_at i l).
Proof.
  revert lo i. induction l as [|y l IH]; intros lo [|i] Ha Hn; cbn in *;
    try discriminate.
  - injection Hn as ->. now rewrite Nat.eqb_refl.
  - destruct Ha as [Hy Hl].
    assert (Hx : S (oid y) <= oid x < hi).
    { eapply ascending_In; [exact Hl|]. apply in_map. eapply nth_error_In; eauto. }
    destruct (Nat.eqb_spec (oid y) (oid x)) as [Heq|_]; [lia|].
    rewrite (IH _ _ Hl Hn). reflexivity.
Qed.

Lemma nth_error_fitness (l : list Ind) (i : nat) (m : Z) :
  nth_error (fitnesses_of l) i = Some m ->
  exists x, nth_error l i = Some x /\ fitness x = m.
Proof.
  unfold fitnesses_of. rewrite nth_error_map.
  destruct (nth_error l i) as [x|]; cbn; [|discriminate].
  intros [= <-]. eauto.
Qed.

Lemma remove_lowest_Ok (lo hi : nat) (pop : list Ind) :
  ascending lo (map (@oid Tree) pop) hi -> pop <> [] ->
  remove_lowest pop = Ok (delete_lowest pop).
Proof.
  intros Ha Hne. unfold remove_lowest, delete_lowest, argmin.
  destruct (first_min_some (fitnesses_of pop)) as (i & m & E).
  { destruct pop; [congruence | discriminate]. }
  rewrite E. cbn.
  apply first_min_spec in E as (Hn & _).
  apply nth_error_fitness in Hn as (y & Hy & _).
  apply getitem_Ok in Hy as Hg. rewrite Hg. cbn.
  apply (list_remove_ascending lo hi pop i y Ha Hy).
Qed.

Lemma remove_lowest_nonempty (pop pop' : list Ind) :
  remove_lowest pop = Ok pop' -> pop <> [].
Proof. intros H ->. discriminate H. Qed.

Lemma delete_lowest_Sub (pop : list Ind) : Sub (delete_lowest pop) pop.
Proof.
  unfold delete_lowest. destruct (first_min (fitnesses_of pop)) as [[i m]|].
  - apply Sub_delete_at.
  - apply Sub_refl.
Qed.

Lemma delete_lowest_length (pop : list Ind) :
  pop <> [] -> S (length (delete_lowest pop)) = length pop.
Proof.
  intros Hne. unfold delete_lowest.
  destruct (first_min_some (fitnesses_of pop)) as (i & m & E).
  { destruct pop; [congruence | discriminate]. }
  rewrite E. apply delete_at_length.
  apply first_min_spec in E as (Hn & _).
  apply nth_error_fitness in Hn as (y & Hy & _).
  apply nth_error_Some. congruence.
Qed.

End Copies.

(** ** The replacement loop *)

Section Replacement.
Context {Tree : Type}.

Local Abbreviation Ind := (Individual Tree).


Lemma replace_all_length (xs pop : list Ind) :
  pop <> [] -> length (replace_all pop xs) = length pop.
Proof.
  revert pop. induction xs as [|x xs IH]; intros pop Hne; cbn; [reflexivity|].
  unfold replace_all in IH. rewrite IH.
  - rewrite length_app. cbn. pose proof (delete_lowest_length pop Hne). lia.
  - destruct (delete_lowest pop); discriminate.
Qed.




Lemma replace_all_ascending (es pop : list Ind) (lo h : nat) :
  ascending lo (map (@oid Tree) pop) h ->
  ascending lo (map (@oid Tree) (replace_all pop (deepcopy_list h es)))
            (h + length es).
Proof.
  revert pop h. induction es as [|e es IH]; intros pop h Ha.
  - cbn. now rewrite Nat.add_0_r.
  - rewrite deepcopy_list_cons. cbn [replace_all fold_left].
    replace (h + length (e :: es)) with (S h + length es) by (cbn; lia).
    apply (IH (delete_lowest pop ++ [deepcopy h e]) (S h)).
    rewrite map_app. cbn. apply ascending_snoc.
    eapply ascending_Sub; [|exact Ha]. apply Sub_map, delete_lowest_Sub.
Qed.

Lemma skipn_nth_cons {A : Type} (l : list A) (a : nat) (e : A) :
  nth_error l a = Some e -> skipn a l = e :: skipn (S a) l.
Proof.
  revert a. induction l as [|x l IH]; intros [|a] H; cbn in *; try discriminate.
  - congruence.
  - now apply IH.
Qed.

(** A completed run of the loop inserted deep copies of the elites
    [a .. a+k-1], in this order, at the addresses [h .. h+k-1]. *)
Lemma reinsert_loop (E : list Ind) (k a : nat) (pop : list Ind) (h lo : nat)
      (r : list Ind * nat) :
  ascending lo (map (@oid Tree) pop) h ->
  for_each (reinsert_elite E) (seq a k) (pop, h) = Ok r ->
  r = (replace_all pop (deepcopy_list h (firstn k (skipn a E))), h + k) /\
  (0 < k -> a + k <= length E /\ pop <> []).
Proof.
  revert a pop h. induction k as [|k IH]; intros a pop h Ha H; cbn in H.
  - injection H as <-. cbn. rewrite Nat.add_0_r. split; [reflexivity | lia].
  - apply bind_Ok in H as ([pop1 h1] & Hstep & H).
    unfold reinsert_elite in Hstep. cbn [fst snd] in Hstep. unbind Hstep.
    injection Hstep as <- <-.
    pose proof (remove_lowest_nonempty _ _ E0) as Hne.
    rewrite (remove_lowest_Ok lo h pop Ha Hne) in E0. injection E0 as <-.
    apply getitem_Ok in E1.
    assert (Ha1 : ascending lo (map (@oid Tree) (delete_lowest pop ++ [deepcopy h v0]))
                            (S h)).
    { rewrite map_app. cbn. apply ascending_snoc.
      eapply ascending_Sub; [|exact Ha]. apply Sub_map, delete_lowest_Sub. }
    destruct (IH (S a) _ (S h) Ha1 H) as (-> & Hk).
    assert (Hlt : a < length E) by (apply nth_error_Some; congruence).
    split.
    + rewrite (skipn_nth_cons E a v0 E1). cbn [firstn].
      rewrite deepcopy_list_cons. cbn [replace_all fold_left].
      f_equal. lia.
    + intros _. split; [|assumption].
      destruct k as [|k]; [lia|]. destruct Hk as [Hk _]; lia.
Qed.

(** The loop completes when the elites it reads exist and the population
    is not empty. *)
Lemma reinsert_loop_total (E : list Ind) (k a : nat) (pop : list Ind)
      (h lo : nat) :
  ascending lo (map (@oid Tree) pop) h -> pop <> [] -> a + k <= length E ->
  exists r, for_each (reinsert_elite E) (seq a k) (pop, h) = Ok r.
Proof.
  revert a pop h. induction k as [|k IH]; intros a pop h Ha Hne Hk; cbn.
  - eauto.
  - unfold reinsert_elite at 1. cbn [fst snd].
    rewrite (remove_lowest_Ok lo h pop Ha Hne). cbn.
    destruct (getitem_lt E a) as (e & He); [lia|]. rewrite He. cbn.
    apply (IH (S a) _ (S h)); [| destruct (delete_lowest pop); discriminate | lia].
    rewrite map_app. cbn. apply ascending_snoc.
    eapply ascending_Sub; [|exact Ha]. apply Sub_map, delete_lowest_Sub.
Qed.
End Replacement.

(** ** Storing the results of an evaluation round *)

Lemma for_each_reaches {I S : Type} (P : S -> Prop) (body : I -> S -> result S)
      (idx : list I) (s s' : S) (i : I) :
  (forall j a b, In j idx -> P a -> body j a = Ok b -> P b) ->
  P s -> for_each body idx s = Ok s' -> In i idx ->
  exists a b, P a /\ body i a = Ok b.
Proof.
  revert s. induction idx as [|j idx IH]; intros s Hstep Hs H Hin; cbn in *;
    [contradiction|].
  apply bind_Ok in H as (a & Ha & H).
  destruct Hin as [->|Hin]; [eauto|].
  apply (IH a); auto.
  - intros k x y Hk. apply Hstep. now right.
  - apply (Hstep j s a); auto.
Qed.

Lemma transpose_Ok (rs : list Eval) (cols : Columns) :
  transpose rs = Ok cols ->
  rs <> [] /\
  cols = mkColumns (map ev_fitness rs) (map ev_memory rs) (map ev_wins rs)
                   (map ev_games rs).
Proof.
  destruct rs; cbn; [discriminate|]. intros [= <-]. split; [discriminate | reflexivity].
Qed.

Section Storing.
Context {Tree : Type}.

Local Abbreviation Ind := (Individual Tree).

Lemma ident_length (l l' : list Ind) :
  map ident l' = map ident l -> length l' = length l.
Proof. intros H. apply (f_equal (@length _)) in H. now rewrite !length_map in H. Qed.

Lemma ident_oid (l l' : list Ind) :
  map ident l' = map ident l -> map (@oid Tree) l' = map (@oid Tree) l.
Proof.
  intros H. apply (f_equal (map (fun p : nat * Tree * list Q => fst (fst p)))) in H.
  now rewrite !map_map in H.
Qed.


Lemma store_fitness_step (fs : list Z) (i : nat) (a b : list Ind) :
  (f <- getitem fs i ;; update_at i (set_fitness f) a) = Ok b ->
  map ident b = map ident a /\ i < length a.
Proof.
  intros H. unbind H. split.
  - eapply update_at_map; [|exact H]. reflexivity.
  - apply update_at_Ok in H as (x & Hx & _). apply nth_error_Some. congruence.
Qed.

Lemma store_fitness_ident (fs : list Z) (c : Z) (l l' : list Ind) :
  store_fitness fs c l = Ok l' -> map ident l' = map ident l.
Proof.
  apply (for_each_inv (fun a => map ident a = map ident l)); [|reflexivity].
  intros i a b _ Ha Hb. apply store_fitness_step in Hb as [Hb _]. congruence.
Qed.

Lemma store_results_step (cols : Columns) (i : nat) (a b : list Ind) :
  (f <- getitem (col_fitness cols) i ;;
   l1 <- update_at i (set_fitness f) a ;;
   g <- getitem (col_games cols) i ;;
   l2 <- update_at i (add_games g) l1 ;;
   w <- getitem (col_wins cols) i ;;
   update_at i (add_wins w) l2) = Ok b ->
  map ident b = map ident a /\ i < length a.
Proof.
  intros H. unbind H.
  assert (H1 : map ident v0 = map ident a)
    by (eapply update_at_map; [|exact E0]; reflexivity).
  assert (H2 : map ident v2 = map ident v0)
    by (eapply update_at_map; [|exact E2]; reflexivity).
  assert (H3 : map ident b = map ident v2)
    by (eapply update_at_map; [|exact H]; reflexivity).
  split; [congruence|].
  apply update_at_Ok in E0 as (x & Hx & _). apply nth_error_Some. congruence.
Qed.

Lemma store_results_ident (cols : Columns) (c : Z) (l l' : list Ind) :
  store_results cols c l = Ok l' -> map ident l' = map ident l.
Proof.
  apply (for_each_inv (fun a => map ident a = map ident l)); [|reflexivity].
  intros i a b _ Ha Hb. apply store_results_step in Hb as [Hb _]. congruence.
Qed.

(** The loop reads [l[count - 1]]. *)
Lemma store_results_bound (cols : Columns) (c : Z) (l l' : list Ind) :
  store_results cols c l = Ok l' -> (c <= Z.of_nat (length l))%Z.
Proof.
  intros H. destruct (Z.le_gt_cases c 0) as [Hc|Hc]; [lia|].
  destruct (for_each_reaches (fun a => map ident a = map ident l) _ _ _ _
              (Z.to_nat (c - 1))
              (fun i a b _ Ha Hb =>
                 eq_trans (proj1 (store_results_step cols i a b Hb)) Ha)
              eq_refl H) as (a & b & Ha & Hb).
  - unfold range. apply in_seq. cbn. lia.
  - apply store_results_step in Hb as [_ Hb].
    apply ident_length in Ha. lia.
Qed.

Lemma store_results_total (cols : Columns) (c : Z) (l : list Ind) :
  (c <= Z.of_nat (length l))%Z ->
  (c <= Z.of_nat (length (col_fitness cols)))%Z ->
  (c <= Z.of_nat (length (col_games cols)))%Z ->
  (c <= Z.of_nat (length (col_wins cols)))%Z ->
  exists l', store_results cols c l = Ok l'.
Proof.
  intros Hl Hf Hg Hw.
  destruct (for_each_total (fun a : list Ind => length a = length l)
              (fun i l' =>
                 f <- getitem (col_fitness cols) i ;;
                 l1 <- update_at i (set_fitness f) l' ;;
                 g <- getitem (col_games cols) i ;;
                 l2 <- update_at i (add_games g) l1 ;;
                 w <- getitem (col_wins cols) i ;;
                 update_at i (add_wins w) l2)
              (range 0 c) l) as (l' & H & _); [|reflexivity|eauto].
  intros i a Hi Ha. apply in_range in Hi; [|lia].
  destruct (getitem_lt (col_fitness cols) i) as (f & ->); [lia|]. cbn.
  destruct (update_at_lt i (set_fitness f) a) as (l1 & -> & H1); [lia|]. cbn.
  destruct (getitem_lt (col_games cols) i) as (g & ->); [lia|]. cbn.
  destruct (update_at_lt i (add_games g) l1) as (l2 & -> & H2); [lia|]. cbn.
  destruct (getitem_lt (col_wins cols) i) as (w & ->); [lia|]. cbn.
  destruct (update_at_lt i (add_wins w) l2) as (l3 & -> & H3); [lia|].
  exists l3. split; [reflexivity | lia].
Qed.

Lemma store_fitness_total (fs : list Z) (c : Z) (l : list Ind) :
  (c <= Z.of_nat (length l))%Z -> (c <= Z.of_nat (length fs))%Z ->
  exists l', store_fitness fs c l = Ok l'.
Proof.
  intros Hl Hf.
  destruct (for_each_total (fun a : list Ind => length a = length l)
              (fun i l' =>
                 f <- getitem fs i ;; update_at i (set_fitness f) l')
              (range 0 c) l) as (l' & H & _); [|reflexivity|eauto].
  intros i a Hi Ha. apply in_range in Hi; [|lia].
  destruct (getitem_lt fs i) as (f & ->); [lia|]. cbn.
  destruct (update_at_lt i (set_fitness f) a) as (l1 & -> & H1); [lia|].
  exists l1. split; [reflexivity | lia].
Qed.
End Storing.

(** ** One generation, step by step *)

Section Generation.
Context {Tree : Type} (W : Collaborators Tree).

Local Abbreviation Ind := (Individual Tree).

Lemma produce_offspring_length (st : Evolution Tree) :
  length (produce_offspring W st) = length (select_parents W st).
Proof. apply mapi_from_length. Qed.

Lemma produce_offspring_oid (st : Evolution Tree) :
  map (@oid Tree) (produce_offspring W st) =
  seq (next_oid st + length (snapshot_elites st)) (length (select_parents W st)).
Proof.
  unfold produce_offspring, mapi. rewrite mapi_from_map. cbn.
  rewrite (mapi_from_index (next_oid st + length (snapshot_elites st)) 0).
  now rewrite Nat.add_0_r.
Qed.

Lemma evaluate_offspring_Ok (st : Evolution Tree) (hard : bool)
      (O : list Ind) (mem : Memory) :
  evaluate_offspring W st hard = Ok (O, mem) ->
  map ident O = map ident (produce_offspring W st) /\
  O <> [] /\ pop_size (config st) <= length O /\
  exists old, memory st = Some old /\
              mem = (concat (map ev_memory (offspring_results W st hard))
                     ++ old)%list.
Proof.
  unfold evaluate_offspring. intros H. unbind H.
  apply transpose_Ok in E as (Hne & ->).
  destruct (memory st) as [old|]; [|discriminate]. unbind H.
  injection H as <- <-. cbn [col_memory] in *.
  pose proof (store_results_ident _ _ _ _ E) as Hid.
  pose proof (store_results_bound _ _ _ _ E) as Hb.
  pose proof (ident_length _ _ Hid) as Hlen.
  repeat split.
  - assumption.
  - intros ->. cbn in Hlen. apply Hne.
    destruct (produce_offspring W st); [reflexivity | discriminate].
  - lia.
  - exists old. split; reflexivity.
Qed.

Lemma evaluate_elites_Ok (st : Evolution Tree) (hard : bool) (E : list Ind) :
  evaluate_elites W st hard = Ok E ->
  map ident E = map ident (snapshot_elites st) /\
  E <> [] /\ (elite_count (config st) <= Z.of_nat (length E))%Z.
Proof.
  unfold evaluate_elites. intros H. unbind H.
  apply transpose_Ok in E0 as (Hne & ->).
  pose proof (store_results_ident _ _ _ _ E1) as Hid1.
  pose proof (store_results_bound _ _ _ _ E1) as Hb.
  pose proof (store_fitness_ident _ _ _ _ H) as Hid2.
  assert (Hid : map ident E = map ident (snapshot_elites st)) by congruence.
  pose proof (ident_length _ _ Hid) as Hlen.
  repeat split.
  - assumption.
  - intros ->. cbn in Hlen. apply Hne.
    destruct (snapshot_elites st); [reflexivity | discriminate].
  - lia.
Qed.

Lemma argmax_Ok (pop : list Ind) (i : nat) :
  argmax (fitnesses_of pop) = Ok i ->
  exists m, first_max (fitnesses_of pop) = Some (i, m).
Proof.
  unfold argmax. destruct (first_max (fitnesses_of pop)) as [[j m]|];
    [|discriminate].
  intros [= ->]. eauto.
Qed.

(** The offspring are new objects with increasing addresses. *)
Lemma offspring_ascending (st : Evolution Tree) (hard : bool) (O : list Ind)
      (mem : Memory) :
  evaluate_offspring W st hard = Ok (O, mem) ->
  ascending (next_oid st + length (snapshot_elites st)) (map (@oid Tree) O)
            (heap_after_offspring W st).
Proof.
  intros H. apply evaluate_offspring_Ok in H as (Hid & _).
  apply ident_oid in Hid. rewrite Hid, produce_offspring_oid.
  unfold heap_after_offspring. rewrite produce_offspring_length.
  apply ascending_seq.
Qed.

(** What a completed generation computed. *)
Lemma perform_generation_Ok (st st' : Evolution Tree) :
  _perform_generation W st = Ok st' ->
  exists hard E O mem i m best,
    harder (population st) = Ok hard /\
    evaluate_elites W st hard = Ok E /\
    evaluate_offspring W st hard = Ok (O, mem) /\
    (0 < Z.to_nat (elite_count (config st) - 1) ->
     1 + Z.to_nat (elite_count (config st) - 1) <= length E) /\
    first_max (fitnesses_of (after_reinsertion W st E O)) = Some (i, m) /\
    nth_error (after_reinsertion W st E O) i = Some best /\
    st' = mkEvolution (config st)
            (delete_lowest (after_reinsertion W st E O)
               ++ [deepcopy (heap_after_reinsertion W st) best])
            (num_gens st + 1)%Z
            (num_evals st + Z.of_nat (pop_size (config st)))%Z
            (start_time st) (elapsed_time st)
            (best_of_gens st ++ [deepcopy (S (heap_after_reinsertion W st)) best])
            (bestFitnesses st ++ [m]) (Some mem)
            (S (S (heap_after_reinsertion W st))) (clock st).
Proof.
  unfold _perform_generation. intros H.
  destruct (harder (population st)) as [hard|] eqn:Hh; [|discriminate].
  cbn [bind] in H.
  destruct (evaluate_elites W st hard) as [E|] eqn:HE; [|discriminate].
  cbn [bind] in H.
  destruct (evaluate_offspring W st hard) as [[O mem]|] eqn:HO; [|discriminate].
  cbn [bind] in H.
  destruct (reinsert_elites (config st) E (O, heap_after_offspring W st))
    as [[P1 h1]|] eqn:HR; [|discriminate].
  cbn [bind] in H.
  pose proof (offspring_ascending st hard O mem HO) as Hasc.
  unfold reinsert_elites, range in HR. change (Z.to_nat 1) with 1 in HR.
  destruct (reinsert_loop E _ 1 O _ _ _ Hasc HR) as (Hr & Hk).
  apply pair_equal_spec in Hr as [-> ->].
  change (replace_all O _) with (after_reinsertion W st E O) in H.
  change (heap_after_offspring W st + _)
    with (heap_after_reinsertion W st) in H.
  destruct (argmax (fitnesses_of (after_reinsertion W st E O))) as [i|] eqn:Hi;
    [|discriminate].
  cbn [bind] in H.
  destruct (getitem (after_reinsertion W st E O) i) as [best|] eqn:Hb;
    [|discriminate].
  cbn [bind] in H.
  apply argmax_Ok in Hi as (m & Hm).
  unfold py_max in H. rewrite Hm in H. cbn [bind] in H.
  assert (Ha1 : ascending (next_oid st + length (snapshot_elites st))
                  (map (@oid Tree) (after_reinsertion W st E O))
                  (heap_after_offspring W st
                   + length (reinserted (config st) E))).
  { apply replace_all_ascending. exact Hasc. }
  assert (Hne : after_reinsertion W st E O <> []).
  { intros Hnil. apply getitem_Ok in Hb. rewrite Hnil in Hb.
    destruct i; discriminate Hb. }
  unfold replace_lowest in H.
  rewrite (remove_lowest_Ok _ _ _ Ha1 Hne) in H. cbn [bind] in H.
  injection H as <-.
  exists hard, E, O, mem, i, m, best.
  apply getitem_Ok in Hb.
  repeat split; try assumption. intros Hpos. apply Hk in Hpos as [Hpos _]. lia.
Qed.
End Generation.

(** ** The elite snapshot *)

Section Elites.
Context {Tree : Type}.

Local Abbreviation Ind := (Individual Tree).

Lemma insert_desc_perm (x : Ind) (l : list Ind) :
  Permutation (insert_desc x l) (x :: l).
Proof.
  induction l as [|y l IH]; cbn; [apply Permutation_refl|].
  destruct (fitness x <? fitness y)%Z; [|apply Permutation_refl].
  eapply Permutation_trans; [apply perm_skip, IH | apply perm_swap].
Qed.

Lemma sorted_desc_perm (l : list Ind) : Permutation (sorted_desc l) l.
Proof.
  induction l as [|x l IH]; cbn; [apply perm_nil|].
  eapply Permutation_trans; [apply insert_desc_perm | now apply perm_skip].
Qed.

Lemma sorted_desc_length (l : list Ind) : length (sorted_desc l) = length l.
Proof. apply Permutation_length, sorted_desc_perm. Qed.



Lemma slice_to_length {A : Type} (k : Z) (l : list A) :
  (0 <= k <= Z.of_nat (length l))%Z -> length (slice_to k l) = Z.to_nat k.
Proof.
  intros H. unfold slice_to. destruct (Z.ltb_spec k 0); [lia|].
  rewrite length_firstn. lia.
Qed.

Lemma snapshot_elites_length (st : Evolution Tree) :
  (0 <= elite_count (config st) <= Z.of_nat (length (population st)))%Z ->
  length (snapshot_elites st) = Z.to_nat (elite_count (config st)).
Proof.
  intros H. unfold snapshot_elites.
  rewrite deepcopy_list_length, slice_to_length; [reflexivity|].
  now rewrite sorted_desc_length.
Qed.
End Elites.

(** ** A generation completes *)

Section Completion.
Context {Tree : Type} (W : Collaborators Tree).

Local Abbreviation Ind := (Individual Tree).

Lemma nonempty_length {A : Type} (l : list A) : l <> [] <-> 0 < length l.
Proof. destruct l; cbn; split; intros; try congruence; lia. Qed.

Lemma first_max_item (pop : list Ind) :
  pop <> [] ->
  exists i m b, first_max (fitnesses_of pop) = Some (i, m) /\
                nth_error pop i = Some b /\ fitness b = m.
Proof.
  intros Hne. destruct (first_max_some (fitnesses_of pop)) as (i & m & E).
  { destruct pop; [congruence | discriminate]. }
  pose proof E as E'. apply first_max_spec in E' as (Hn & _).
  apply nth_error_fitness in Hn as (b & Hb & Hf). eauto 6.
Qed.

Lemma harder_total (pop : list Ind) :
  pop <> [] -> exists hard, harder pop = Ok hard.
Proof.
  intros Hne. destruct (first_max_item pop Hne) as (i & m & b & E & Hb & _).
  unfold harder, argmax. rewrite E. cbn.
  apply getitem_Ok in Hb. rewrite Hb. cbn. eauto.
Qed.

Lemma mapi_nonempty {A B : Type} (f : nat -> A -> B) (l : list A) :
  l <> [] -> mapi f l <> [].
Proof. destruct l; [congruence | discriminate]. Qed.

Lemma transpose_total (rs : list Eval) :
  rs <> [] ->
  transpose rs = Ok (mkColumns (map ev_fitness rs) (map ev_memory rs)
                               (map ev_wins rs) (map ev_games rs)).
Proof. destruct rs; [congruence | reflexivity]. Qed.

Lemma mapi_length {A B : Type} (f : nat -> A -> B) (l : list A) :
  length (mapi f l) = length l.
Proof. apply mapi_from_length. Qed.

Lemma evaluate_elites_total (st : Evolution Tree) (hard : bool) :
  (1 <= elite_count (config st) <= Z.of_nat (length (population st)))%Z ->
  exists E, evaluate_elites W st hard = Ok E.
Proof.
  intros H. unfold evaluate_elites.
  assert (Hlen : length (snapshot_elites st) = Z.to_nat (elite_count (config st)))
    by (apply snapshot_elites_length; lia).
  rewrite transpose_total by (apply mapi_nonempty, nonempty_length; lia).
  cbn [bind].
  match goal with
  | |- context [store_results ?c ?n ?l] =>
      destruct (store_results_total c n l) as (E1 & HE1);
      [ | | | | rewrite HE1 ]
  end.
  1-4: cbn [col_fitness col_games col_wins]; rewrite ?length_map, ?mapi_length; lia.
  cbn [bind col_fitness].
  pose proof (ident_length _ _ (store_results_ident _ _ _ _ HE1)) as Hl1.
  apply store_fitness_total; rewrite ?length_map, ?mapi_length; lia.
Qed.

(** Without elites the elite round has nothing to transpose, and the
    access [fitnesses[1]] of line 279 raises. *)
Lemma zero_elites_raise (st : Evolution Tree) :
  elite_count (config st) = 0%Z -> population st <> [] ->
  _perform_generation W st = Raise IndexError.
Proof.
  intros Hec Hne. unfold _perform_generation.
  destruct (harder_total (population st) Hne) as (hard & ->). cbn [bind].
  unfold evaluate_elites, snapshot_elites. rewrite Hec. reflexivity.
Qed.

Lemma evaluate_offspring_total (st : Evolution Tree) (hard : bool) :
  memory st <> None -> 0 < length (select_parents W st) ->
  pop_size (config st) <= length (select_parents W st) ->
  exists O mem, evaluate_offspring W st hard = Ok (O, mem).
Proof.
  intros Hmem Hpos Hlen. unfold evaluate_offspring.
  pose proof (produce_offspring_length W st) as Hl.
  rewrite transpose_total by (apply mapi_nonempty, nonempty_length; lia).
  cbn [bind col_memory].
  destruct (memory st) as [old|]; [|congruence].
  match goal with
  | |- context [store_results ?c ?n ?l] =>
      destruct (store_results_total c n l) as (O & HO);
      [ | | | | rewrite HO ]
  end.
  1-4: cbn [col_fitness col_games col_wins]; rewrite ?length_map, ?mapi_length; lia.
  cbn. eauto.
Qed.
End Completion.

Section Totality.
Context {Tree : Type} (W : Collaborators Tree).

Local Abbreviation Ind := (Individual Tree).

Lemma after_reinsertion_length (st : Evolution Tree) (E O : list Ind) :
  O <> [] -> length (after_reinsertion W st E O) = length O.
Proof. apply replace_all_length. Qed.

Lemma perform_generation_total (st : Evolution Tree) :
  length (population st) = pop_size (config st) ->
  length (select_parents W st) = pop_size (config st) ->
  (1 <= elite_count (config st) <= Z.of_nat (pop_size (config st)))%Z ->
  memory st <> None ->
  exists st', _perform_generation W st = Ok st'.
Proof.
  intros Hpop Hsel Hec Hmem. unfold _perform_generation.
  destruct (harder_total (population st)) as (hard & ->).
  { apply nonempty_length. lia. }
  cbn [bind].
  destruct (evaluate_elites_total W st hard) as (E & HE); [lia|].
  rewrite HE. cbn [bind].
  destruct (evaluate_offspring_total W st hard) as (O & mem & HO); [assumption|lia|lia|].
  rewrite HO. cbn [bind].
  pose proof (offspring_ascending W st hard O mem HO) as Hasc.
  pose proof (evaluate_offspring_Ok W st hard O mem HO) as (_ & HneO & _).
  pose proof (evaluate_elites_Ok W st hard E HE) as (_ & _ & HlenE).
  unfold reinsert_elites, range. change (Z.to_nat 1) with 1.
  destruct (reinsert_loop_total E (Z.to_nat (elite_count (config st) - 1)) 1 O
              _ _ Hasc HneO) as (r & Hr); [lia|].
  rewrite Hr. cbn [bind].
  destruct (reinsert_loop E _ 1 O _ _ _ Hasc Hr) as (-> & _).
  change (replace_all O _) with (after_reinsertion W st E O).
  change (heap_after_offspring W st + _) with (heap_after_reinsertion W st).
  assert (Hne : after_reinsertion W st E O <> []).
  { apply nonempty_length. rewrite after_reinsertion_length by assumption.
    now apply nonempty_length. }
  destruct (first_max_item _ Hne) as (i & m & b & Hmax & Hb & _).
  unfold argmax, py_max. rewrite Hmax. cbn [bind].
  apply getitem_Ok in Hb. rewrite Hb. cbn [bind].
  unfold replace_lowest.
  erewrite remove_lowest_Ok; [cbn; eauto | | exact Hne].
  apply replace_all_ascending. exact Hasc.
Qed.
End Totality.

(** ** When no reinserted copy is evicted *)




Section Survival.
Context {Tree : Type}.

Local Abbreviation Ind := (Individual Tree).




End Survival.

(** ** The gradient refinement *)

Lemma for_each_skip {I S : Type} (body : I -> S -> result S) (idx : list I) (s : S) :
  (forall i, body i s = Ok s) -> for_each body idx s = Ok s.
Proof.
  intros H. induction idx as [|i idx IH]; cbn; [reflexivity|].
  now rewrite H.
Qed.




Lemma non_final_nil (l : list (option State)) :
  non_final l = [] -> forall o, In o l -> o = None.
Proof.
  induction l as [|[s|] l IH]; cbn; intros H o Ho; try discriminate.
  - contradiction.
  - destruct Ho as [<-|Ho]; [reflexivity | auto].
Qed.

Lemma all_terminal_non_final (batch : list Transition) :
  all_terminal batch -> non_final (map next_state batch) = [].
Proof.
  induction batch as [|tr batch IH]; intros H; cbn; [reflexivity|].
  rewrite (H tr) by now left. apply IH. intros x Hx. apply H. now right.
Qed.

(** The target values line up with the sampled transitions: the values
    scattered through the mask meet the rewards of their own rows. *)
Lemma targets_spec (f : State -> list Q) (trs : list Transition)
      (zeros maxima values expected : list Q) :
  Forall (fun z => z = 0%Q) zeros ->
  max_1 (map f (non_final (map next_state trs))) = Ok maxima ->
  masked_assign zeros (map (@is_not_None State) (map next_state trs)) maxima
    = Ok values ->
  discounted_plus values (map reward trs) = Ok expected ->
  Forall2 (fun tr v =>
             match next_state tr with
             | Some s => exists q, row_max (f s) = Ok q /\
                                   v = (q * GAMMA + reward tr)%Q
             | None => v = (0 * GAMMA + reward tr)%Q
             end) trs expected.
Proof.
  revert zeros maxima values expected.
  induction trs as [|tr trs IH]; intros zeros maxima values expected Hz Hm Ha Hd.
  - cbn in *. destruct zeros; [|discriminate].
    destruct maxima; [|discriminate]. injection Ha as <-.
    cbn in Hd. injection Hd as <-. constructor.
  - cbn [map] in Ha, Hd, Hm.
    destruct zeros as [|z zeros]; [discriminate|].
    apply Forall_cons_iff in Hz as [-> Hz].
    destruct (next_state tr) as [s|] eqn:Hs; cbn in Hm, Ha.
    + unbind Hm. injection Hm as <-.
      unbind Ha. injection Ha as <-.
      cbn in Hd. unbind Hd. injection Hd as <-.
      constructor; [rewrite Hs; eauto | eapply IH; eauto].
    + unbind Ha. injection Ha as <-.
      cbn in Hd. unbind Hd. injection Hd as <-.
      constructor; [now rewrite Hs | eapply IH; eauto].
Qed.

Lemma Forall_repeat {A : Type} (P : A -> Prop) (x : A) (n : nat) :
  P x -> Forall P (repeat x n).
Proof. intros H. induction n; cbn; constructor; assumption. Qed.

(** * The claims *)

Section Claims.
Context {Tree : Type} (W : Collaborators Tree).

Local Abbreviation Ind := (Individual Tree).

Lemma perform_generation_size (st st' : Evolution Tree) :
  length (select_parents W st) = pop_size (config st) ->
  _perform_generation W st = Ok st' ->
  config st' = config st /\ length (population st') = pop_size (config st').
Proof.
  intros Hsel H.
  apply perform_generation_Ok in H
    as (hard & E & O & mem & i & m & best & _ & _ & HO & _ & _ & Hb & ->).
  cbn [config population]. split; [reflexivity|].
  apply evaluate_offspring_Ok in HO as (Hid & HneO & _).
  apply ident_length in Hid. rewrite produce_offspring_length, Hsel in Hid.
  assert (Hne : after_reinsertion W st E O <> []).
  { intros Hnil. rewrite Hnil in Hb. destruct i; discriminate Hb. }
  rewrite length_app. cbn [length].
  pose proof (delete_lowest_length _ Hne) as Hd.
  rewrite after_reinsertion_length in Hd by assumption. lia.
Qed.

Lemma must_terminate_fields (st st1 : Evolution Tree) (stop : bool) :
  _must_terminate W st = (stop, st1) ->
  config st1 = config st /\ population st1 = population st /\
  num_gens st1 = num_gens st /\ num_evals st1 = num_evals st /\
  best_of_gens st1 = best_of_gens st /\ memory st1 = memory st.
Proof.
  unfold _must_terminate. intros H. apply pair_equal_spec in H as [_ <-].
  cbn. repeat split.
Qed.

Lemma initialize_population_size (st st' : Evolution Tree) :
  _initialize_population W st = Ok st' ->
  config st' = config st /\ length (population st') = pop_size (config st).
Proof.
  unfold _initialize_population. intros H.
  apply bind_Ok in H as (cols & _ & H).
  apply bind_Ok in H as (P1 & HP1 & H).
  apply bind_Ok in H as (ibest & _ & H).
  apply bind_Ok in H as (best & _ & H).
  apply bind_Ok in H as (rs & _ & H).
  apply bind_Ok in H as (P2 & HP2 & H).
  injection H as <-. cbn [config population]. split; [reflexivity|].
  apply store_fitness_ident, ident_length in HP1.
  apply update_at_Ok in HP2 as (x & Hx & ->).
  rewrite <- (firstn_skipn_middle _ _ Hx) in HP1.
  rewrite length_app in *. cbn [length] in *.
  unfold random_population in HP1.
  rewrite mapi_length, length_map, length_seq in HP1. exact HP1.
Qed.

Lemma boundary_size (cfg : Config) (st : Evolution Tree) :
  (forall s, length (select_parents W s) = pop_size (config s)) ->
  boundary W (__init__ cfg []) st ->
  config st = cfg /\ length (population st) = pop_size cfg.
Proof.
  intros Hsel Hb. induction Hb as [st Hbegin | st st1 st2 Hb IH Hterm Hgen _].
  - unfold evolve_begin in Hbegin. cbn [population __init__] in Hbegin.
    apply initialize_population_size in Hbegin. exact Hbegin.
  - destruct IH as [Hc Hp].
    apply must_terminate_fields in Hterm as (Hc1 & _).
    destruct (perform_generation_size st1 st2 (Hsel st1) Hgen) as [Hc2 Hp2].
    split; congruence.
Qed.

(** C5.  Population size.  Let selection hand back [pop_size] parents.
    Then a run without seed holds exactly [pop_size] individuals whenever it
    stands at the head of its generational loop; a generation that
    completes leaves a population of exactly [pop_size] individuals (the
    offspring replace the population, and every remove-lowest is paired
    with one append); and from a population of [pop_size] individuals, with
    an elite count between 1 and [pop_size] and a replay memory in place,
    the generation does complete. *)
Theorem generation_keeps_pop_size (cfg : Config) :
  (forall st, length (select_parents W st) = pop_size (config st)) ->
  (forall st, boundary W (__init__ cfg []) st ->
              length (population st) = pop_size cfg) /\
  (forall st st', _perform_generation W st = Ok st' ->
                  config st' = config st /\
                  length (population st') = pop_size (config st')) /\
  (forall st,
     length (population st) = pop_size (config st) ->
     (1 <= elite_count (config st) <= Z.of_nat (pop_size (config st)))%Z ->
     memory st <> None ->
     exists st', _perform_generation W st = Ok st').
Proof.
  intros Hsel. repeat apply conj.
  - intros st Hb. now apply (boundary_size cfg st Hsel).
  - intros st st'. apply perform_generation_size, Hsel.
  - intros st Hpop Hec Hmem. apply perform_generation_total; auto.
Qed.





Lemma torch_cat_Ok {A : Type} (l x : list A) :
  torch_cat l = Ok x -> x = l /\ l <> [].
Proof.
  destruct l; cbn; [discriminate|]. intros [= <-]. split; [reflexivity | discriminate].
Qed.

Lemma minibatch_Ok (k : nat) (best : Ind) (heap : nat) (mem : Memory)
      (mb : Minibatch (Tree:=Tree)) :
  minibatch W k best heap mem = Ok mb ->
  target_tree mb = deepcopy heap best /\
  transitions mb = sample W k mem batch_size /\
  non_final (map next_state (transitions mb)) <> [] /\
  Forall2 (fun tr v =>
             match next_state tr with
             | Some s =>
                 exists q,
                   row_max (output W (tree best) (consts best) s) = Ok q /\
                   v = (q * GAMMA + reward tr)%Q
             | None => v = (0 * GAMMA + reward tr)%Q
             end) (transitions mb) (expected_state_action_values mb).
Proof.
  unfold minibatch. intros H.
  destruct (sample W k mem batch_size) as [|tr trs] eqn:Hs; [discriminate|].
  remember (tr :: trs) as sampled eqn:Hsampled.
  apply bind_Ok in H as (nf & Hnf & H). apply torch_cat_Ok in Hnf as [-> Hnf].
  apply bind_Ok in H as (sb & Hsb & H). apply torch_cat_Ok in Hsb as [-> _].
  apply bind_Ok in H as (ab & Hab & H). apply torch_cat_Ok in Hab as [-> _].
  apply bind_Ok in H as (rb & Hrb & H). apply torch_cat_Ok in Hrb as [-> _].
  apply bind_Ok in H as (predicted & Hpred & H).
  apply bind_Ok in H as (maxima & Hmax & H).
  apply bind_Ok in H as (values & Hval & H).
  apply bind_Ok in H as (expected & Hexp & H).
  injection H as <-.
  repeat split; [assumption|].
  apply (targets_spec (output W (tree best) (consts best)) sampled
                      (repeat 0%Q batch_size) maxima values expected);
    [apply Forall_repeat; reflexivity | exact Hmax | exact Hval | exact Hexp].
Qed.

(** C7.  When the champion has no constant, or the replay memory holds at
    most 128 transitions, initialisation completes, the population it
    leaves is the evaluated population itself, the champion in it has the
    constants it was generated with, and the archived copy too. *)
Theorem refinement_skipped
        (st : Evolution Tree) (P : list Ind) (i : nat) (m : Z) (best : Ind) :
  0 < pop_size (config st) ->
  evaluated_population W st = Ok P ->
  first_max (fitnesses_of P) = Some (i, m) ->
  nth_error P i = Some best ->
  consts best = [] \/ length (initial_memory W st) <= batch_size ->
  exists st' archived,
    _initialize_population W st = Ok st' /\
    population st' = P /\
    best_of_gens st' = best_of_gens st ++ [archived] /\
    copy_of best archived /\
    memory st' = Some (initial_memory W st).
Proof.
  intros Hpos HP Hmax Hb Hskip.
  unfold _initialize_population.
  rewrite transpose_total.
  2:{ apply mapi_nonempty. unfold random_population.
      apply mapi_nonempty, nonempty_length. rewrite length_map, length_seq. lia. }
  cbn [bind col_fitness col_memory].
  unfold evaluated_population, initial_results in HP. rewrite HP. cbn [bind].
  unfold argmax. rewrite Hmax. cbn [bind].
  apply getitem_Ok in Hb as Hg. rewrite Hg. cbn [bind].
  assert (Hr : refine W best (next_oid st + pop_size (config st))
                      (initial_memory W st)
               = Ok (mkRefiner W best (adamw W (consts best))
                               (next_oid st + pop_size (config st)))).
  { unfold refine. apply for_each_skip. intros k. unfold refine_iteration.
    replace ((0 <? length (consts best))
             && (batch_size <? length (initial_memory W st))) with false;
      [reflexivity|].
    symmetry. apply andb_false_iff.
    destruct Hskip as [->|Hlen]; [left; reflexivity | right].
    apply Nat.ltb_ge. exact Hlen. }
  unfold initial_memory, initial_results in Hr. rewrite Hr. cbn [bind champion heap_next].
  unfold update_at. rewrite Hb. cbn [bind].
  rewrite firstn_skipn_middle by exact Hb.
  eexists. eexists. cbn [population best_of_gens memory].
  repeat split.
Qed.


(** C10.  An iteration that refines and samples 128 transitions that are
    all terminal raises, at the concatenation of the non-final next states;
    hence a refinement that completes with constants to tune and more than
    128 transitions in memory sampled a non-terminal transition in each of
    its 500 minibatches. *)
Theorem all_terminal_minibatch_raises
        (nconsts : nat) (mem : Memory) :
  0 < nconsts -> batch_size < length mem ->
  (forall k rs,
     length (sample W k mem batch_size) = batch_size ->
     all_terminal (sample W k mem batch_size) ->
     refine_iteration W nconsts mem k rs = Raise RuntimeError) /\
  (forall best heap r,
     length (consts best) = nconsts ->
     refine W best heap mem = Ok r ->
     forall k, k < refinement_iterations ->
               exists tr, In tr (sample W k mem batch_size) /\
                          next_state tr <> None).
Proof.
  intros Hn Hmem. apply Nat.ltb_lt in Hn as Hn', Hmem as Hmem'. split.
  - intros k rs Hlen Hall. unfold refine_iteration.
    rewrite Hn', Hmem'. cbn [andb]. unfold minibatch.
    destruct (sample W k mem batch_size) as [|tr trs] eqn:Hs;
      [cbn in Hlen; discriminate|].
    rewrite all_terminal_non_final by assumption. reflexivity.
  - intros best heap r Hc Hr k Hk. unfold refine in Hr. rewrite Hc in Hr.
    destruct (for_each_reaches (fun _ => True) _ _ _ _ k
                (fun _ _ _ _ _ _ => I) I Hr) as (a & b & _ & Hab).
    { apply in_seq. lia. }
    unfold refine_iteration in Hab. rewrite Hn', Hmem' in Hab. cbn [andb] in Hab.
    destruct (minibatch W k (champion a) (heap_next a) mem) as [mb|] eqn:Hmb;
      [|discriminate].
    apply minibatch_Ok in Hmb as (_ & Hs & Hnf & _). rewrite Hs in Hnf.
    destruct (sample W k mem batch_size) as [|tr trs]; [now elim Hnf|].
    clear Hs Hab.
    induction (tr :: trs) as [|x l IH]; [now elim Hnf|].
    cbn in Hnf. destruct (next_state x) as [s|] eqn:Hx.
    + exists x. split; [now left | congruence].
    + destruct (IH Hnf) as (y & Hy & Hny). exists y. split; [now right | assumption].
Qed.

(** *** Counters, archive and the loop *)

Lemma perform_generation_counters (st st' : Evolution Tree) :
  _perform_generation W st = Ok st' ->
  num_gens st' = (num_gens st + 1)%Z /\
  num_evals st' = (num_evals st + Z.of_nat (pop_size (config st)))%Z /\
  length (best_of_gens st') = S (length (best_of_gens st)) /\
  memory st' <> None.
Proof.
  intros H.
  apply perform_generation_Ok in H
    as (hard & E & O & mem & i & m & best & _ & _ & _ & _ & _ & _ & ->).
  cbn. rewrite length_app. cbn. repeat split; [lia | discriminate].
Qed.

Lemma perform_generation_memory (st st' : Evolution Tree) :
  _perform_generation W st = Ok st' ->
  exists hard old,
    harder (population st) = Ok hard /\ memory st = Some old /\
    memory st' =
      Some (concat (map ev_memory (offspring_results W st hard)) ++ old)%list.
Proof.
  intros H.
  apply perform_generation_Ok in H
    as (hard & E & O & mem & i & m & best & Hh & _ & HO & _ & _ & _ & ->).
  apply evaluate_offspring_Ok in HO as (_ & _ & _ & old & Hold & ->).
  exists hard, old. repeat split; assumption.
Qed.

Lemma initialize_population_Ok (st st' : Evolution Tree) :
  _initialize_population W st = Ok st' ->
  config st' = config st /\
  length (population st') = pop_size (config st) /\
  memory st' <> None /\
  num_gens st' = num_gens st /\
  num_evals st' = (num_evals st + Z.of_nat (pop_size (config st)))%Z /\
  length (best_of_gens st') = S (length (best_of_gens st)).
Proof.
  unfold _initialize_population. intros H.
  apply bind_Ok in H as (cols & _ & H).
  apply bind_Ok in H as (P1 & HP1 & H).
  apply bind_Ok in H as (ibest & _ & H).
  apply bind_Ok in H as (best & _ & H).
  apply bind_Ok in H as (rs & _ & H).
  apply bind_Ok in H as (P2 & HP2 & H).
  injection H as <-. cbn.
  apply store_fitness_ident, ident_length in HP1.
  apply update_at_Ok in HP2 as (x & Hx & ->).
  rewrite length_app in *. cbn.
  assert (Hl : length (firstn ibest P1 ++ x :: skipn (S ibest) P1) = length P1)
    by (now rewrite firstn_skipn_middle).
  rewrite length_app in Hl. cbn in Hl.
  unfold random_population in HP1.
  rewrite mapi_length, length_map, length_seq in HP1.
  repeat split; [lia | discriminate | rewrite length_app; cbn; lia].
Qed.

Lemma must_terminate_gens (st : Evolution Tree) :
  max_time (config st) = None -> max_evals (config st) = None ->
  _must_terminate W st =
  (bound_reached (max_gens (config st)) (num_gens st),
   mkEvolution (config st) (population st) (num_gens st) (num_evals st)
               (start_time st) (time W (clock st) - start_time st)%Z
               (best_of_gens st) (bestFitnesses st) (memory st) (next_oid st)
               (S (clock st))).
Proof.
  intros Ht He. unfold _must_terminate. rewrite Ht, He. cbn.
  destruct (bound_reached (max_gens (config st)) (num_gens st)); reflexivity.
Qed.

Lemma generational_loop_halts (cfg : Config) (G : Z) :
  (0 < G)%Z -> max_gens cfg = Some G ->
  max_evals cfg = None -> max_time cfg = None ->
  (forall st, length (select_parents W st) = pop_size (config st)) ->
  (1 <= elite_count cfg <= Z.of_nat (pop_size cfg))%Z ->
  (verbose cfg = true -> 2 <= pop_size cfg) ->
  forall (d : nat) (st : Evolution Tree),
    config st = cfg -> length (population st) = pop_size cfg ->
    memory st <> None -> (num_gens st + Z.of_nat d = G)%Z ->
    forall fuel, d < fuel ->
      exists st', generational_loop W fuel st = Some (Ok st') /\
                  num_gens st' = G.
Proof.
  intros HG Hgens Hevals Htime Hsel Hec Hverb.
  induction d as [|d IH]; intros st Hcfg Hpop Hmem Hd fuel Hfuel;
    (destruct fuel as [|fuel]; [lia|]); cbn [generational_loop];
    rewrite must_terminate_gens by (rewrite Hcfg; assumption);
    rewrite Hcfg, Hgens; unfold bound_reached.
  - replace (negb (G =? 0)%Z && (G <=? num_gens st)%Z) with true.
    + eexists. split; [reflexivity | cbn; lia].
    + symmetry. apply andb_true_iff.
      split; [apply negb_true_iff, Z.eqb_neq | apply Z.leb_le]; lia.
  - replace (negb (G =? 0)%Z && (G <=? num_gens st)%Z) with false.
    2:{ symmetry. apply andb_false_iff. right. apply Z.leb_gt. lia. }
    match goal with
    | |- context [_perform_generation W ?s] => set (st1 := s)
    end.
    assert (Hc1 : config st1 = cfg)
      by (subst st1; cbn [config]; first [reflexivity | exact Hcfg]).
    assert (Hp1 : length (population st1) = pop_size (config st1))
      by (rewrite Hc1; exact Hpop).
    assert (Hm1 : memory st1 <> None) by exact Hmem.
    assert (Hg1 : num_gens st1 = num_gens st) by reflexivity.
    clearbody st1.
    destruct (perform_generation_total W st1) as (st2 & H2);
      [exact Hp1 | apply Hsel | rewrite Hc1; exact Hec | exact Hm1 |].
    rewrite H2. cbn [bind].
    destruct (perform_generation_size st1 st2 (Hsel st1) H2) as [Hc2 Hp2].
    pose proof (perform_generation_counters _ _ H2) as (Hg2 & _ & _ & Hm2).
    unfold log_info. rewrite Hc2, Hc1.
    replace (verbose cfg && (length (population st2) <? 2)) with false.
    2:{ symmetry. apply andb_false_iff.
        destruct (verbose cfg) eqn:Hv; [right | now left].
        apply Nat.ltb_ge. rewrite Hp2, Hc2, Hc1. now apply Hverb. }
    cbn [bind].
    apply IH; try lia; try congruence.
Qed.

(** The archive of a run without seed holds one entry more than there
    were generations: initialisation puts the first entry, and each
    generation adds one. *)
Lemma archive_length_unseeded (cfg : Config) (st : Evolution Tree) :
  evolve_begin W (__init__ cfg []) = Ok st ->
  Z.of_nat (length (best_of_gens st)) = (num_gens st + 1)%Z.
Proof.
  unfold evolve_begin. cbn [population __init__]. intros H.
  apply initialize_population_Ok in H as (_ & _ & _ & Hg & _ & Hl).
  cbn in Hg, Hl. lia.
Qed.

Lemma archive_length_step (st st' : Evolution Tree) :
  _perform_generation W st = Ok st' ->
  Z.of_nat (length (best_of_gens st)) = (num_gens st + 1)%Z ->
  Z.of_nat (length (best_of_gens st')) = (num_gens st' + 1)%Z.
Proof.
  intros H Hinv. apply perform_generation_counters in H as (Hg & _ & Hl & _). lia.
Qed.

(** At every loop head of a run without seed the archive holds one entry
    more than there were generations. *)
Lemma boundary_archive_unseeded (cfg : Config) (st : Evolution Tree) :
  boundary W (__init__ cfg []) st ->
  Z.of_nat (length (best_of_gens st)) = (num_gens st + 1)%Z.
Proof.
  induction 1 as [st Hbegin | st st1 st2 Hb IH Hterm Hgen _].
  - now apply (archive_length_unseeded cfg).
  - apply must_terminate_fields in Hterm as (_ & _ & Hg & _ & Ha & _).
    apply (archive_length_step st1 st2 Hgen). congruence.
Qed.

(** At every loop head of a seeded run the archive holds exactly as many
    entries as there were generations. *)
Lemma boundary_archive_seeded (cfg : Config) (seed : list Ind)
      (st : Evolution Tree) :
  seed <> [] -> boundary W (__init__ cfg seed) st ->
  Z.of_nat (length (best_of_gens st)) = num_gens st.
Proof.
  intros Hseed. induction 1 as [st Hbegin | st st1 st2 Hb IH Hterm Hgen _].
  - unfold evolve_begin in Hbegin. cbn [population __init__] in Hbegin.
    destruct seed; [congruence|]. injection Hbegin as <-. reflexivity.
  - apply must_terminate_fields in Hterm as (_ & _ & Hg & _ & Ha & _).
    apply perform_generation_counters in Hgen as (Hg2 & _ & Hl & _).
    rewrite Hl, Hg2. rewrite Ha, Hg. lia.
Qed.

(** C9.  With a positive generation bound [G] and no bound on evaluations
    or time, a run whose initialisation completes halts after exactly [G]
    generations (given [fuel] for more than [G] passes of the loop),
    provided that selection hands back [pop_size] parents, that the elite
    count lies between 1 and [pop_size], and that the verbose report, if
    requested, has two individuals to compute a deviation from. *)
Theorem evolve_halts_at_max_gens (cfg : Config) (G : Z) (st1 : Evolution Tree) :
  (0 < G)%Z -> max_gens cfg = Some G ->
  max_evals cfg = None -> max_time cfg = None ->
  (forall st, length (select_parents W st) = pop_size (config st)) ->
  (1 <= elite_count cfg <= Z.of_nat (pop_size cfg))%Z ->
  (verbose cfg = true -> 2 <= pop_size cfg) ->
  evolve_begin W (__init__ cfg []) = Ok st1 ->
  forall fuel, Z.to_nat G < fuel ->
    exists st', evolve W fuel (__init__ cfg []) = Some (Ok st') /\
                num_gens st' = G.
Proof.
  intros HG Hgens Hevals Htime Hsel Hec Hverb Hbegin fuel Hfuel.
  unfold evolve. rewrite Hbegin.
  unfold evolve_begin in Hbegin. cbn [population __init__] in Hbegin.
  apply initialize_population_Ok in Hbegin
    as (Hc & Hp & Hm & Hg & _). cbn in Hc, Hp, Hg.
  apply (generational_loop_halts cfg G HG Hgens Hevals Htime Hsel Hec Hverb
           (Z.to_nat G) st1); try assumption; lia.
Qed.
End Claims.

(** * The claims on concrete runs *)

Import Scenario.

Lemma In_firstn {A : Type} (n : nat) (l : list A) (x : A) :
  In x (firstn n l) -> In x l.
Proof.
  revert l. induction n as [|n IH]; intros [|y l]; cbn; try contradiction.
  intros [<-|H]; [now left | right; auto].
Qed.

Lemma cyclic_selection_length (st : Evolution nat) (W : Collaborators nat) :
  sel_fun W = (fun _ pop n => cyclic_selection pop n) ->
  length (select_parents W st) = pop_size (config st).
Proof.
  intros H. unfold select_parents. rewrite H. unfold cyclic_selection.
  now rewrite length_map, length_seq.
Qed.





(** C5, witness: the run with two individuals and one elite enters its
    loop with two individuals, and its first generation completes and
    leaves two individuals. *)
Lemma generation_keeps_pop_size_witness :
  length (population start_a) = 2 /\
  exists st',
    _perform_generation world_a start_a = Ok st' /\
    length (population st') = 2.
Proof.
  destruct (generation_keeps_pop_size world_a config_a)
    as (Hboundary & Hkeep & Htotal).
  { intros st. now apply cyclic_selection_length. }
  split.
  - apply Hboundary. apply boundary_first. reflexivity.
  - destruct (Htotal start_a) as (st' & H);
      [ reflexivity
      | split; apply Z.leb_le; reflexivity
      | discriminate
      | ].
    exists st'. split; [exact H|].
    destruct (Hkeep start_a st' H) as [Hc Hp]. rewrite Hp, Hc. reflexivity.
Defined.

(** C3, on a concrete generation.  In the first generation of the run with
    two individuals and one elite, the elite round returns the replay
    contribution [a_transition 2]; the replay memory after the generation
    holds the two offspring contributions in front of the two initial ones,
    and not that of the elite. *)
Theorem elite_replay_contribution_is_dropped :
  exists st',
    _perform_generation world_a start_a = Ok st' /\
    map ev_memory (elite_results world_a start_a false) = [[a_transition 2]] /\
    replay_of st' = [a_transition 3; a_transition 3;
                     a_transition 1; a_transition 1] /\
    ~ In (a_transition 2) (replay_of st').
Proof.
  destruct (_perform_generation world_a start_a) as [st'|e] eqn:H;
    vm_compute in H; [|discriminate H].
  injection H as <-. eexists. split; [reflexivity|].
  split; [reflexivity|]. split; [reflexivity|].
  vm_compute. intros [H|[H|[H|[H|[]]]]]; discriminate H.
Qed.

(** C4, on a concrete generation.  In the same generation the fitness
    function is called on one elite and on two offspring, and the
    evaluation counter grows by two, the population size. *)
Theorem elite_evaluations_are_not_counted :
  exists st',
    _perform_generation world_a start_a = Ok st' /\
    length (elite_results world_a start_a false) = 1 /\
    length (offspring_results world_a start_a false) = 2 /\
    num_evals st' = (num_evals start_a + 2)%Z.
Proof.
  destruct (_perform_generation world_a start_a) as [st'|e] eqn:H;
    vm_compute in H; [|discriminate H].
  injection H as <-. eexists. repeat split.
Qed.

(** C6, on a concrete run.  A run seeded with two individuals enters the
    generational loop with no generation performed and an empty archive. *)
Theorem seeded_run_starts_with_empty_archive :
  exists st,
    evolve_begin world_a seeded = Ok st /\
    num_gens st = 0%Z /\ length (best_of_gens st) = 0.
Proof. eexists. repeat split. Qed.

(** C7, witness: the initialisation of the run with two individuals; its
    champion has no constant. *)
Lemma refinement_skipped_witness :
  exists st' P best archived,
    evaluated_population world_a (__init__ config_a []) = Ok P /\
    nth_error P 0 = Some best /\ consts best = [] /\
    _initialize_population world_a (__init__ config_a []) = Ok st' /\
    population st' = P /\
    best_of_gens st' = [archived] /\ copy_of best archived.
Proof.
  destruct (evaluated_population world_a (__init__ config_a [])) as [P|e] eqn:HP;
    [|vm_compute in HP; discriminate HP].
  destruct (nth_error P 0) as [best|] eqn:Hb.
  2:{ vm_compute in HP. injection HP as <-. discriminate Hb. }
  assert (Hc : consts best = []).
  { vm_compute in HP. injection HP as <-. injection Hb as <-. reflexivity. }
  destruct (refinement_skipped world_a (__init__ config_a []) P 0 10%Z best)
    as (st' & archived & Hinit & Hpop & Harch & Hcopy & _).
  - apply Nat.ltb_lt. reflexivity.
  - exact HP.
  - vm_compute in HP. injection HP as <-. reflexivity.
  - exact Hb.
  - left. exact Hc.
  - exists st', P, best, archived. repeat split; try assumption; apply Hcopy.
Defined.


(** C9, witness: the run with two individuals, one elite and a bound of one
    generation halts after one generation. *)
Lemma evolve_halts_at_max_gens_witness :
  exists st',
    evolve world_a 2 (__init__ config_a []) = Some (Ok st') /\
    num_gens st' = 1%Z.
Proof.
  destruct (evolve_begin world_a (__init__ config_a [])) as [st1|e] eqn:Hb;
    [|vm_compute in Hb; discriminate Hb].
  apply (evolve_halts_at_max_gens world_a config_a 1 st1).
  - reflexivity.
  - reflexivity.
  - reflexivity.
  - reflexivity.
  - intros st. now apply cyclic_selection_length.
  - split; apply Z.leb_le; reflexivity.
  - discriminate.
  - exact Hb.
  - apply Nat.ltb_lt. reflexivity.
Defined.

(** C10, witness: on a memory of 129 terminal transitions the first
    refining iteration raises. *)
Lemma all_terminal_minibatch_raises_witness :
  refine_iteration world_a 1 memory_t 0 refiner_r = Raise RuntimeError.
Proof.
  destruct (all_terminal_minibatch_raises world_a 1 memory_t) as [Hraise _].
  - apply Nat.ltb_lt. reflexivity.
  - apply Nat.ltb_lt. reflexivity.
  - apply Hraise.
    + reflexivity.
    + intros tr Htr. apply In_firstn in Htr. apply repeat_spec in Htr.
      now subst tr.
Defined.

(** * Further properties of the controller *)

(** ** Loops that update one position per pass *)

Lemma nth_error_update {A : Type} (l : list A) (i j : nat) (x y : A) :
  nth_error l i = Some x ->
  nth_error (firstn i l ++ y :: skipn (S i) l) j =
  if Nat.eqb j i then Some y else nth_error l j.
Proof.
  intros Hx.
  assert (Hi : i < length l) by (apply nth_error_Some; congruence).
  assert (Hl : length (firstn i l) = i) by (rewrite length_firstn; lia).
  destruct (Nat.eqb_spec j i) as [->|Hne].
  - rewrite nth_error_app2 by lia. rewrite Hl, Nat.sub_diag. reflexivity.
  - destruct (Nat.lt_ge_cases j i) as [Hlt|Hge].
    + rewrite nth_error_app1 by lia. rewrite nth_error_firstn.
      apply Nat.ltb_lt in Hlt. now rewrite Hlt.
    + rewrite nth_error_app2 by lia. rewrite Hl.
      destruct (j - i) as [|m] eqn:Hm; [lia|]. cbn [nth_error].
      rewrite nth_error_skipn. f_equal. lia.
Qed.

Lemma update_at_twice {A : Type} (i : nat) (f g : A -> A) (l l1 l2 : list A) :
  update_at i f l = Ok l1 -> update_at i g l1 = Ok l2 ->
  update_at i (fun x => g (f x)) l = Ok l2.
Proof.
  intros H1 H2.
  apply update_at_Ok in H1 as (x & Hx & ->).
  apply update_at_Ok in H2 as (y & Hy & ->).
  rewrite (nth_error_update l i i x (f x) Hx), Nat.eqb_refl in Hy.
  injection Hy as <-.
  assert (Hi : i < length l) by (apply nth_error_Some; congruence).
  unfold update_at. rewrite Hx. f_equal.
  rewrite firstn_app, skipn_app, length_firstn.
  replace (i - Nat.min i (length l)) with 0 by lia.
  replace (S i - Nat.min i (length l)) with 1 by lia.
  rewrite firstn_firstn, Nat.min_id.
  rewrite (skipn_all2 (firstn i l)) by (rewrite length_firstn; lia).
  change (firstn 0 (f x :: skipn (S i) l)) with (@nil A).
  change (skipn 1 (f x :: skipn (S i) l)) with (skipn (S i) l).
  now rewrite app_nil_r.
Qed.

(** A loop over [a, a+k) whose pass [i] rewrites the element at [i] with
    [h i] leaves [h j (l[j])] at the positions it went through and the rest
    as it was. *)
Lemma for_each_pointwise {A : Type} (h : nat -> A -> A)
      (body : nat -> list A -> result (list A)) :
  (forall i l l', body i l = Ok l' -> update_at i (h i) l = Ok l') ->
  forall (k a : nat) (l l' : list A),
    for_each body (seq a k) l = Ok l' ->
    forall j,
      nth_error l' j =
      if (a <=? j) && (j <? a + k) then option_map (h j) (nth_error l j)
      else nth_error l j.
Proof.
  intros Hbody. induction k as [|k IH]; intros a l l' H j; cbn in H.
  - injection H as <-.
    replace ((a <=? j) && (j <? a + 0)) with false; [reflexivity|].
    symmetry. apply andb_false_iff.
    destruct (Nat.leb_spec a j); [right; apply Nat.ltb_ge; lia | now left].
  - apply bind_Ok in H as (l1 & H1 & H).
    apply Hbody, update_at_Ok in H1 as (x & Hx & ->).
    rewrite (IH _ _ _ H j), (nth_error_update l a j x (h a x) Hx).
    destruct (Nat.eqb_spec j a) as [->|Hne].
    + replace ((S a <=? a) && (a <? S a + k)) with false
        by (symmetry; apply andb_false_iff; left; apply Nat.leb_gt; lia).
      replace ((a <=? a) && (a <? a + S k)) with true
        by (symmetry; apply andb_true_iff; split;
            [apply Nat.leb_le | apply Nat.ltb_lt]; lia).
      now rewrite Hx.
    + replace ((S a <=? j) && (j <? S a + k)) with ((a <=? j) && (j <? a + S k));
        [reflexivity|].
      replace (S a + k) with (a + S k) by lia. f_equal.
      destruct (Nat.leb_spec a j), (Nat.leb_spec (S a) j); try reflexivity; lia.
Qed.

(** ** Results are stored by position *)

Section Scoring.
Context {Tree : Type} (W : Collaborators Tree).

Local Abbreviation Ind := (Individual Tree).

Lemma range_from_zero (c : Z) : range 0 c = seq 0 (Z.to_nat c).
Proof. unfold range. now rewrite Z.sub_0_r. Qed.

Lemma store_fitness_nth (fs : list Z) (c : Z) (l l' : list Ind) (j : nat) :
  store_fitness fs c l = Ok l' ->
  nth_error l' j =
  if j <? Z.to_nat c
  then option_map (set_fitness (nth j fs 0%Z)) (nth_error l j)
  else nth_error l j.
Proof.
  unfold store_fitness. rewrite range_from_zero. intros H.
  assert (Hbody : forall i (a b : list Ind),
             (f <- getitem fs i ;; update_at i (set_fitness f) a) = Ok b ->
             update_at i (set_fitness (nth i fs 0%Z)) a = Ok b).
  { intros i a b Hb. apply bind_Ok in Hb as (f & Hf & Hb).
    apply getitem_Ok in Hf. now rewrite (nth_error_nth fs i 0%Z Hf). }
  exact (for_each_pointwise (fun i => set_fitness (nth i fs 0%Z)) _
           Hbody _ _ _ _ H j).
Qed.

Lemma store_results_nth (cols : Columns) (c : Z) (l l' : list Ind) (j : nat) :
  store_results cols c l = Ok l' ->
  nth_error l' j =
  if j <? Z.to_nat c
  then option_map
         (fun x => add_wins (nth j (col_wins cols) 0%Z)
                     (add_games (nth j (col_games cols) 0%Z)
                        (set_fitness (nth j (col_fitness cols) 0%Z) x)))
         (nth_error l j)
  else nth_error l j.
Proof.
  unfold store_results. rewrite range_from_zero. intros H.
  refine (for_each_pointwise
            (fun i x => add_wins (nth i (col_wins cols) 0%Z)
                          (add_games (nth i (col_games cols) 0%Z)
                             (set_fitness (nth i (col_fitness cols) 0%Z) x)))
            _ _ _ _ _ _ H j).
  intros i a b Hb. cbn beta in Hb.
  apply bind_Ok in Hb as (f & Hf & Hb). apply getitem_Ok in Hf.
  apply bind_Ok in Hb as (l1 & H1 & Hb).
  apply bind_Ok in Hb as (g & Hg & Hb). apply getitem_Ok in Hg.
  apply bind_Ok in Hb as (l2 & H2 & Hb).
  apply bind_Ok in Hb as (w & Hw & Hb). apply getitem_Ok in Hw.
  rewrite (nth_error_nth _ i 0%Z Hf), (nth_error_nth _ i 0%Z Hg),
    (nth_error_nth _ i 0%Z Hw).
  pose proof (update_at_twice i _ _ _ _ _ H1 H2) as H12.
  exact (update_at_twice i _ _ _ _ _ H12 Hb).
Qed.

Lemma mapi_nth {A B : Type} (f : nat -> A -> B) (l : list A) (i : nat) :
  nth_error (mapi f l) i = option_map (f i) (nth_error l i).
Proof. unfold mapi. now rewrite mapi_from_nth. Qed.

Lemma nth_map_result {A : Type} (g : Eval -> Z) (f : nat -> A -> Eval)
      (l : list A) (i : nat) (x : A) :
  nth_error l i = Some x -> nth i (map g (mapi f l)) 0%Z = g (f i x).
Proof.
  intros Hx. apply nth_error_nth.
  now rewrite nth_error_map, mapi_nth, Hx.
Qed.

(** X1.  The loop of lines 194 and 195, run on the initial population and
    the fitness values of its evaluation, never raises and stores, at every
    position of the population, the fitness that the fitness function
    returned for the individual of that position; nothing else of the
    individual changes. *)
Theorem initial_fitness_by_position (st : Evolution Tree) :
  evaluated_population W st =
  Ok (mapi (fun i x => set_fitness (ev_fitness (fitness_function W RInit i x)) x)
           (random_population W st)).
Proof.
  unfold evaluated_population.
  assert (Hlen : length (random_population W st) = pop_size (config st)).
  { unfold random_population. now rewrite mapi_length, length_map, length_seq. }
  destruct (store_fitness_total (map ev_fitness (initial_results W st))
              (Z.of_nat (pop_size (config st))) (random_population W st))
    as (P & HP).
  - lia.
  - unfold initial_results. rewrite length_map, mapi_length. lia.
  - rewrite HP. f_equal. apply nth_error_ext. intros j.
    rewrite (store_fitness_nth _ _ _ _ j HP), mapi_nth, Nat2Z.id.
    destruct (nth_error (random_population W st) j) as [x|] eqn:Hx.
    + assert (Hj : j < pop_size (config st)).
      { rewrite <- Hlen. apply nth_error_Some. congruence. }
      apply Nat.ltb_lt in Hj. rewrite Hj. cbn [option_map].
      unfold initial_results. now rewrite (nth_map_result ev_fitness _ _ j x Hx).
    + now destruct (j <? pop_size (config st)).
Qed.

(** X2.  After the offspring round every offspring among the first
    [pop_size] carries the result of its own evaluation (fitness replaced,
    games and wins added); an offspring beyond [pop_size], which exists
    when selection hands back more parents than asked for, is evaluated
    too and keeps the statistics it was produced with. *)
Theorem offspring_scored_by_position
        (st : Evolution Tree) (hard : bool) (O : list Ind) (mem : Memory)
        (i : nat) (x : Ind) :
  evaluate_offspring W st hard = Ok (O, mem) ->
  nth_error (produce_offspring W st) i = Some x ->
  nth_error O i =
  Some (if i <? pop_size (config st)
        then scored (fitness_function W (ROffspring (num_gens st) hard) i x) x
        else x).
Proof.
  unfold evaluate_offspring. intros H Hx.
  apply bind_Ok in H as (cols & Hc & H). apply transpose_Ok in Hc as (_ & ->).
  destruct (memory st) as [old|]; [|discriminate].
  apply bind_Ok in H as (S0 & HS & H). injection H as <- _.
  rewrite (store_results_nth _ _ _ _ i HS), Nat2Z.id, Hx.
  cbn [col_fitness col_games col_wins option_map].
  destruct (i <? pop_size (config st)); [|reflexivity].
  unfold scored.
  now rewrite !(nth_map_result _ _ _ i x Hx).
Qed.

End Scoring.

(** ** Initialisation *)

Section Initialisation.
Context {Tree : Type} (W : Collaborators Tree).

Local Abbreviation Ind := (Individual Tree).

Lemma set_consts_same (x : Ind) : set_consts (consts x) x = x.
Proof. now destruct x. Qed.

(** The refinement keeps the champion's identity, tree and statistics, and
    only moves the free address upwards. *)
Lemma refine_champion (best : Ind) (heap : nat) (mem : Memory) (r : Refiner W) :
  refine W best heap mem = Ok r ->
  (exists c, champion r = set_consts c best) /\ heap <= heap_next r.
Proof.
  unfold refine.
  apply (for_each_inv
           (fun rs : Refiner W =>
              (exists c, champion rs = set_consts c best) /\ heap <= heap_next rs)).
  - intros k a b _ [(c & Hc) Hh] Hb. unfold refine_iteration in Hb.
    destruct ((0 <? length (consts best)) && (batch_size <? length mem)).
    + apply bind_Ok in Hb as (mb & _ & Hb).
      destruct (optimizer_step W _ _ _ _ _ _) as [opt cs]. injection Hb as <-.
      cbn [champion heap_next]. rewrite Hc. split; [|lia].
      exists cs. reflexivity.
    + injection Hb as <-. split; [eauto | assumption].
  - cbn [champion heap_next]. split; [|lia].
    exists (consts best). symmetry. apply set_consts_same.
Qed.

Lemma random_population_oid (st : Evolution Tree) :
  map (@oid Tree) (random_population W st) =
  seq (next_oid st) (pop_size (config st)).
Proof.
  unfold random_population, mapi. rewrite mapi_from_map. cbn [oid with_oid].
  rewrite (mapi_from_index (next_oid st) 0), Nat.add_0_r.
  now rewrite length_map, length_seq.
Qed.

(** What a completed initialisation computed. *)
Lemma initialize_population_inv (st st' : Evolution Tree) (P : list Ind) :
  evaluated_population W st = Ok P ->
  _initialize_population W st = Ok st' ->
  exists i best c h,
    first_max (fitnesses_of P) = Some (i, fitness best) /\
    nth_error P i = Some best /\
    next_oid st + pop_size (config st) <= h /\
    st' = mkEvolution (config st)
            (firstn i P ++ set_consts c best :: skipn (S i) P)
            (num_gens st) (num_evals st + Z.of_nat (pop_size (config st)))%Z
            (start_time st) (elapsed_time st)
            (best_of_gens st ++ [deepcopy h (set_consts c best)])
            (bestFitnesses st) (Some (initial_memory W st)) (S h) (clock st).
Proof.
  unfold _initialize_population, evaluated_population, initial_results.
  intros HP H.
  apply bind_Ok in H as (cols & Hc & H). apply transpose_Ok in Hc as (_ & ->).
  cbn [col_fitness col_memory] in H. rewrite HP in H. cbn [bind] in H.
  apply bind_Ok in H as (i & Hi & H). apply argmax_Ok in Hi as (m & Hm).
  apply bind_Ok in H as (best & Hb & H). apply getitem_Ok in Hb.
  apply bind_Ok in H as (r & Hr & H).
  apply refine_champion in Hr as ((c & Hc) & Hh).
  unfold update_at in H. rewrite Hb in H. cbn [bind] in H. injection H as <-.
  pose proof Hm as Hspec. apply first_max_spec in Hspec as (Hn & _).
  apply nth_error_fitness in Hn as (b' & Hb' & Hf).
  assert (b' = best) as -> by congruence. subst m.
  exists i, best, c, (heap_next r). rewrite Hc.
  repeat split; assumption.
Qed.

(** X4.  A completed initialisation leaves the evaluated population as it
    is except for the constants of its champion, the first individual of
    highest fitness: every other individual, and the champion's identity,
    tree, fitness, games and wins, are untouched by the refinement. *)
Theorem initialisation_changes_only_champion_constants
        (st st' : Evolution Tree) (P : list Ind) :
  evaluated_population W st = Ok P ->
  _initialize_population W st = Ok st' ->
  exists i best c,
    nth_error P i = Some best /\
    is_max (fitness best) (fitnesses_of P) /\
    (forall j x, j < i -> nth_error P j = Some x ->
                 (fitness x < fitness best)%Z) /\
    population st' = firstn i P ++ set_consts c best :: skipn (S i) P.
Proof.
  intros HP H.
  destruct (initialize_population_inv st st' P HP H)
    as (i & best & c & h & Hm & Hb & _ & ->).
  exists i, best, c. cbn [population]. repeat split; try assumption.
  - apply first_max_spec in Hm. apply Hm.
  - apply first_max_spec in Hm. apply Hm.
  - intros j x Hj Hx.
    revert Hm Hj. generalize (fitness best) as m.
    assert (Hfx : nth_error (fitnesses_of P) j = Some (fitness x))
      by (unfold fitnesses_of; now rewrite nth_error_map, Hx).
    clear Hb Hx HP H. revert i j Hfx.
    induction (fitnesses_of P) as [|y l IH]; intros i j Hfx m Hm Hj;
      [discriminate|].
    cbn in Hm. destruct (first_max l) as [[k z]|] eqn:E.
    + destruct (Z.ltb_spec y z); injection Hm as <- <-; [|lia].
      destruct j as [|j]; cbn in Hfx.
      * injection Hfx as <-. assumption.
      * apply (IH k j Hfx z eq_refl). lia.
    + injection Hm as <- <-. lia.
Qed.

(** X5.  The champion archived by a completed initialisation is a deep copy
    of the champion as the refinement left it; it is at least as fit as
    every individual of the population, and it is an object of its own:
    its address lies above those of the whole population. *)
Theorem initial_archive_dominates_population (st st' : Evolution Tree) :
  _initialize_population W st = Ok st' ->
  exists b x,
    best_of_gens st' = best_of_gens st ++ [b] /\
    In x (population st') /\ copy_of x b /\
    (forall y, In y (population st') ->
               (fitness y <= fitness b)%Z /\ oid y < oid b) /\
    oid b < next_oid st'.
Proof.
  intros H.
  destruct (evaluated_population W st) as [P|e] eqn:HP.
  2:{ unfold _initialize_population, evaluated_population, initial_results in *.
      apply bind_Ok in H as (cols & Hc & H). apply transpose_Ok in Hc as (_ & ->).
      cbn [col_fitness] in H. rewrite HP in H. discriminate H. }
  destruct (initialize_population_inv st st' P HP H)
    as (i & best & c & h & Hm & Hb & Hh & ->).
  cbn [population best_of_gens next_oid].
  exists (deepcopy h (set_consts c best)), (set_consts c best).
  split; [reflexivity|]. split; [apply in_or_app; right; now left|].
  split; [apply deepcopy_copy_of|]. split; [|cbn; lia].
  assert (Hall : forall y, In y P -> (fitness y <= fitness best)%Z /\ oid y < h).
  { intros y Hy. split.
    - apply first_max_spec in Hm as (_ & _ & Hle). apply Hle.
      now apply in_map.
    - unfold evaluated_population in HP.
      apply store_fitness_ident, ident_oid in HP.
      rewrite random_population_oid in HP.
      assert (Ho : In (oid y) (seq (next_oid st) (pop_size (config st))))
        by (rewrite <- HP; now apply in_map).
      apply in_seq in Ho. lia. }
  intros y Hy. cbn [deepcopy with_oid set_consts fitness oid].
  apply in_app_or in Hy as [Hy|[<-|Hy]].
  - apply Hall. eapply In_firstn; eassumption.
  - cbn. apply (Hall best). eapply nth_error_In; eassumption.
  - apply Hall. rewrite <- (firstn_skipn (S i) P). apply in_or_app. now right.
Qed.
End Initialisation.

(** ** The population and the archive after a generation *)

Lemma ascending_NoDup (lo hi : nat) (l : list nat) : ascending lo l hi -> NoDup l.
Proof.
  revert lo. induction l as [|x l IH]; intros lo H; [constructor|].
  destruct H as [Hx Hl]. constructor; [|eapply IH; eassumption].
  intros Hin. pose proof (ascending_In _ _ _ _ Hl Hin). lia.
Qed.

Section AfterGeneration.
Context {Tree : Type} (W : Collaborators Tree).

Local Abbreviation Ind := (Individual Tree).

(** The population a completed generation leaves holds new objects only,
    at increasing addresses. *)
Lemma perform_generation_ascending (st st' : Evolution Tree) :
  _perform_generation W st = Ok st' ->
  ascending (next_oid st) (map (@oid Tree) (population st'))
            (S (heap_after_reinsertion W st)) /\
  next_oid st' = S (S (heap_after_reinsertion W st)).
Proof.
  intros H.
  apply perform_generation_Ok in H
    as (hard & E & O & mem & i & m & best & _ & _ & HO & Hk & _ & _ & ->).
  cbn [population next_oid]. split; [|reflexivity].
  rewrite map_app. cbn [map oid deepcopy with_oid].
  apply ascending_snoc.
  eapply ascending_Sub; [apply Sub_map, delete_lowest_Sub|].
  pose proof (offspring_ascending W st hard O mem HO) as Hasc.
  pose proof (replace_all_ascending
                (reinserted (config st) E) O _ _ Hasc) as Ha.
  fold (elite_copies W st E) in Ha. fold (after_reinsertion W st E O) in Ha.
  eapply ascending_weaken; [| |exact Ha]; [lia|].
  unfold heap_after_reinsertion, reinserted.
  rewrite length_firstn. lia.
Qed.

(** X6.  A completed generation archives a deep copy of the fittest
    individual of the population it leaves: another copy of that individual
    is the last member of the population, every member is at most as fit as
    the archived one, and the value appended to [bestFitnesses] is its
    fitness. *)
Theorem generation_archive_dominates_population (st st' : Evolution Tree) :
  _perform_generation W st = Ok st' ->
  exists b rest last,
    best_of_gens st' = best_of_gens st ++ [b] /\
    population st' = rest ++ [last] /\
    copy_of last b /\ oid last <> oid b /\
    (forall x, In x (population st') -> (fitness x <= fitness b)%Z) /\
    bestFitnesses st' = bestFitnesses st ++ [fitness b].
Proof.
  intros H.
  apply perform_generation_Ok in H
    as (hard & E & O & mem & i & m & best & _ & _ & _ & _ & Hmax & Hb & ->).
  cbn [population best_of_gens bestFitnesses].
  pose proof Hmax as Hspec. apply first_max_spec in Hspec as (Hn & _ & Hle).
  apply nth_error_fitness in Hn as (b' & Hb' & Hf).
  assert (b' = best) as -> by congruence. subst m.
  exists (deepcopy (S (heap_after_reinsertion W st)) best),
    (delete_lowest (after_reinsertion W st E O)),
    (deepcopy (heap_after_reinsertion W st) best).
  repeat split.
  - cbn. lia.
  - intros x Hx. cbn [deepcopy with_oid fitness].
    apply in_app_or in Hx as [Hx|[<-|[]]]; [|cbn; lia].
    apply Hle, in_map.
    eapply Sub_In; [apply delete_lowest_Sub | exact Hx].
Qed.

(** X7.  The population a completed generation leaves consists of objects
    with pairwise distinct identities, all below the next free address; the
    archived champion is none of them; and when the previous population
    respected the allocator, no object of it is in the new one. *)
Theorem generation_allocates_fresh_objects (st st' : Evolution Tree) :
  _perform_generation W st = Ok st' ->
  NoDup (map (@oid Tree) (population st')) /\
  heap_ok (population st') (next_oid st') /\
  (forall b, nth_error (best_of_gens st') (length (best_of_gens st)) = Some b ->
             forall x, In x (population st') -> oid x <> oid b) /\
  (heap_ok (population st) (next_oid st) ->
   forall x y, In x (population st') -> In y (population st) -> oid x <> oid y).
Proof.
  intros H.
  pose proof (perform_generation_ascending st st' H) as [Hasc Hnext].
  assert (Hin : forall x, In x (population st') ->
                          next_oid st <= oid x < S (heap_after_reinsertion W st)).
  { intros x Hx. eapply ascending_In; [exact Hasc | now apply in_map]. }
  repeat split.
  - eapply ascending_NoDup; eassumption.
  - intros x Hx. rewrite Hnext. specialize (Hin x Hx). lia.
  - intros b Hb x Hx.
    apply perform_generation_Ok in H
      as (hard & E & O & mem & i & m & best & _ & _ & _ & _ & _ & _ & ->).
    cbn [best_of_gens] in Hb. rewrite nth_error_app2, Nat.sub_diag in Hb by lia.
    injection Hb as <-. specialize (Hin x Hx). cbn [deepcopy with_oid oid]. lia.
  - intros Hheap x y Hx Hy. specialize (Hin x Hx). specialize (Hheap y Hy). lia.
Qed.
End AfterGeneration.

(** ** Termination *)

Section Termination.
Context {Tree : Type} (W : Collaborators Tree).

Local Abbreviation Ind := (Individual Tree).

Lemma must_terminate_spec (st : Evolution Tree) :
  _must_terminate W st =
  (bound_reached (max_time (config st)) (time W (clock st) - start_time st)
   || bound_reached (max_evals (config st)) (num_evals st)
   || bound_reached (max_gens (config st)) (num_gens st),
   mkEvolution (config st) (population st) (num_gens st) (num_evals st)
               (start_time st) (time W (clock st) - start_time st)%Z
               (best_of_gens st) (bestFitnesses st) (memory st) (next_oid st)
               (S (clock st))).
Proof.
  unfold _must_terminate. f_equal.
  destruct (bound_reached (max_time (config st)) _),
    (bound_reached (max_evals (config st)) _),
    (bound_reached (max_gens (config st)) _); reflexivity.
Qed.

Lemma unconfigured_never_reached (bound : option Z) (v : Z) :
  unconfigured bound -> bound_reached bound v = false.
Proof. intros [->| ->]; reflexivity. Qed.

Lemma generational_loop_returns (fuel : nat) (st st' : Evolution Tree) :
  generational_loop W fuel st = Some (Ok st') ->
  config st' = config st /\
  bound_reached (max_time (config st)) (elapsed_time st')
  || bound_reached (max_evals (config st)) (num_evals st')
  || bound_reached (max_gens (config st)) (num_gens st') = true.
Proof.
  revert st. induction fuel as [|fuel IH]; intros st H; [discriminate|].
  cbn [generational_loop] in H. rewrite must_terminate_spec in H.
  match type of H with
  | context [if ?c then _ else _] => destruct c eqn:Hstop
  end.
  - injection H as <-. cbn. split; [reflexivity | exact Hstop].
  - match type of H with
    | context [_perform_generation W ?s] =>
        destruct (_perform_generation W s) as [st2|e] eqn:Hgen
    end; [|discriminate].
    cbn [bind] in H.
    destruct (log_info st2) as [[]|e]; [|discriminate]. cbn [bind] in H.
    apply IH in H as [Hc Hb].
    apply perform_generation_Ok in Hgen
      as (hard & E & O & mem & i & m & best & _ & _ & _ & _ & _ & _ & ->).
    cbn [config] in Hc, Hb. split; assumption.
Qed.

Lemma evolve_begin_config (st st1 : Evolution Tree) :
  evolve_begin W st = Ok st1 -> config st1 = config st.
Proof.
  unfold evolve_begin. cbn [population].
  destruct (population st).
  - intros H. apply initialize_population_Ok in H as (Hc & _). exact Hc.
  - intros [= <-]. reflexivity.
Qed.

(** X8.  [evolve] returns only when a bound is reached: in the state it
    returns, which has the configuration it started with, the stored
    elapsed time has reached a non-zero [max_time], or the evaluation
    counter a non-zero [max_evals], or the generation counter a non-zero
    [max_gens]. *)
Theorem evolve_returns_only_at_bound (fuel : nat) (st st' : Evolution Tree) :
  evolve W fuel st = Some (Ok st') ->
  config st' = config st /\
  (bound_reached (max_time (config st)) (elapsed_time st') = true \/
   bound_reached (max_evals (config st)) (num_evals st') = true \/
   bound_reached (max_gens (config st)) (num_gens st') = true).
Proof.
  unfold evolve. intros H.
  destruct (evolve_begin W st) as [st1|e] eqn:Hb; [|discriminate].
  apply evolve_begin_config in Hb.
  apply generational_loop_returns in H as [Hc Hr]. rewrite Hb in Hc, Hr.
  split; [assumption|].
  apply orb_true_iff in Hr as [Hr|Hr]; [|now right; right].
  apply orb_true_iff in Hr as [Hr|Hr]; [now left | now right; left].
Qed.

(** X9.  A bound of [0] counts as no bound: when each of the three bounds
    is [None] or [0], [evolve] never returns a final state, whatever the
    fuel; the run goes on until something raises. *)
Theorem unbounded_run_never_returns (fuel : nat) (st st' : Evolution Tree) :
  unconfigured (max_time (config st)) ->
  unconfigured (max_evals (config st)) ->
  unconfigured (max_gens (config st)) ->
  evolve W fuel st <> Some (Ok st').
Proof.
  intros Ht He Hg H. unfold evolve in H.
  destruct (evolve_begin W st) as [st1|e] eqn:Hb; [|discriminate].
  apply evolve_begin_config in Hb.
  apply generational_loop_returns in H as [_ Hr]. rewrite Hb in Hr.
  rewrite !unconfigured_never_reached in Hr by assumption. discriminate Hr.
Qed.

Lemma generational_loop_halts_at_evals (cfg : Config) (N : Z) :
  (0 < N)%Z -> max_evals cfg = Some N ->
  unconfigured (max_gens cfg) -> unconfigured (max_time cfg) ->
  (forall st, length (select_parents W st) = pop_size (config st)) ->
  (1 <= elite_count cfg <= Z.of_nat (pop_size cfg))%Z ->
  (verbose cfg = true -> 2 <= pop_size cfg) ->
  forall (d : nat) (st : Evolution Tree),
    config st = cfg -> length (population st) = pop_size cfg ->
    memory st <> None ->
    (num_evals st < N + Z.of_nat (pop_size cfg))%Z ->
    (N - num_evals st <= Z.of_nat d)%Z ->
    forall fuel, d < fuel ->
      exists st', generational_loop W fuel st = Some (Ok st') /\
                  (N <= num_evals st' < N + Z.of_nat (pop_size cfg))%Z.
Proof.
  intros HN Hevals Hgens Htime Hsel Hec Hverb.
  assert (Hstop : forall st, config st = cfg ->
            fst (_must_terminate W st) = (N <=? num_evals st)%Z).
  { intros st Hc. rewrite must_terminate_spec. cbn [fst]. rewrite Hc, Hevals.
    rewrite (unconfigured_never_reached (max_time cfg) _ Htime),
      (unconfigured_never_reached (max_gens cfg) _ Hgens).
    rewrite orb_false_l, orb_false_r. unfold bound_reached.
    replace (N =? 0)%Z with false by (symmetry; apply Z.eqb_neq; lia).
    reflexivity. }
  induction d as [|d IH]; intros st Hcfg Hpop Hmem Hlt Hd fuel Hfuel;
    (destruct fuel as [|fuel]; [lia|]); cbn [generational_loop];
    specialize (Hstop st Hcfg);
    rewrite must_terminate_spec in Hstop |- *; cbn [fst] in Hstop;
    rewrite Hstop; destruct (Z.leb_spec N (num_evals st)) as [Hle|Hgt];
    try (eexists; split; [reflexivity | cbn [num_evals]; lia]); try lia.
  match goal with
  | |- context [_perform_generation W ?s] => set (st1 := s)
  end.
  assert (Hc1 : config st1 = cfg) by exact Hcfg.
  assert (Hp1 : length (population st1) = pop_size (config st1))
    by (rewrite Hc1; exact Hpop).
  assert (Hm1 : memory st1 <> None) by exact Hmem.
  assert (He1 : num_evals st1 = num_evals st) by reflexivity.
  clearbody st1.
  destruct (perform_generation_total W st1) as (st2 & H2);
    [exact Hp1 | apply Hsel | rewrite Hc1; exact Hec | exact Hm1 |].
  rewrite H2. cbn [bind].
  destruct (perform_generation_size W st1 st2 (Hsel st1) H2) as [Hc2 Hp2].
  pose proof (perform_generation_counters W _ _ H2) as (_ & He2 & _ & Hm2).
  unfold log_info. rewrite Hc2, Hc1.
  replace (verbose cfg && (length (population st2) <? 2)) with false.
  2:{ symmetry. apply andb_false_iff.
      destruct (verbose cfg) eqn:Hv; [right | now left].
      apply Nat.ltb_ge. rewrite Hp2, Hc2, Hc1. now apply Hverb. }
  cbn [bind]. rewrite Hc1 in He2.
  apply IH; try congruence; lia.
Qed.

(** X10.  With a positive evaluation bound [N] as the only bound, a run
    without seed whose initialisation completes halts with
    [N <= num_evals < N + pop_size]: the counter, which grows by [pop_size]
    per round counted, overshoots the bound by less than one batch.  The
    other hypotheses keep the generations from raising. *)
Theorem evolve_halts_at_max_evals (cfg : Config) (N : Z) (st1 : Evolution Tree) :
  (0 < N)%Z -> max_evals cfg = Some N ->
  unconfigured (max_gens cfg) -> unconfigured (max_time cfg) ->
  (forall st, length (select_parents W st) = pop_size (config st)) ->
  (1 <= elite_count cfg <= Z.of_nat (pop_size cfg))%Z ->
  (verbose cfg = true -> 2 <= pop_size cfg) ->
  evolve_begin W (__init__ cfg []) = Ok st1 ->
  forall fuel, Z.to_nat N < fuel ->
    exists st', evolve W fuel (__init__ cfg []) = Some (Ok st') /\
                (N <= num_evals st' < N + Z.of_nat (pop_size cfg))%Z.
Proof.
  intros HN Hevals Hgens Htime Hsel Hec Hverb Hbegin fuel Hfuel.
  unfold evolve. rewrite Hbegin.
  unfold evolve_begin in Hbegin. cbn [population __init__] in Hbegin.
  apply initialize_population_Ok in Hbegin
    as (Hc & Hp & Hm & _ & He & _). cbn in Hc, Hp, He.
  apply (generational_loop_halts_at_evals cfg N HN Hevals Hgens Htime Hsel Hec
           Hverb (Z.to_nat N) st1); try assumption; lia.
Qed.
End Termination.

(** ** Edge cases and errors *)

Section Edges.
Context {Tree : Type} (W : Collaborators Tree).

Local Abbreviation Ind := (Individual Tree).

Lemma initialize_nothing (st : Evolution Tree) :
  pop_size (config st) = 0 -> _initialize_population W st = Raise IndexError.
Proof.
  intros H. unfold _initialize_population, random_population.
  rewrite H. reflexivity.
Qed.

(** X11.  A population size of 0 makes a run without seed raise
    [IndexError] during initialisation: the transposition of the empty batch
    of results is empty and [fitnesses[1]] does not exist. *)
Theorem empty_population_size_raises (cfg : Config) (fuel : nat) :
  pop_size cfg = 0 ->
  evolve W fuel (__init__ cfg []) = Some (Raise IndexError).
Proof.
  intros H. unfold evolve, evolve_begin. cbn [population __init__].
  rewrite initialize_nothing; [reflexivity | exact H].
Qed.

(** X12.  In a verbose run with fewer than two individuals, the report
    after the first generation that completes raises [StatisticsError]: the
    standard deviation and the variance of the fitness values need two
    data points. *)
Theorem verbose_report_needs_two_individuals
        (fuel : nat) (st st2 : Evolution Tree) :
  verbose (config st) = true ->
  pop_size (config st) < 2 ->
  fst (_must_terminate W st) = false ->
  length (select_parents W (snd (_must_terminate W st))) = pop_size (config st) ->
  _perform_generation W (snd (_must_terminate W st)) = Ok st2 ->
  generational_loop W (S fuel) st = Some (Raise StatisticsError).
Proof.
  intros Hv Hp Hstop Hsel Hgen. cbn [generational_loop].
  destruct (_must_terminate W st) as [stop st1] eqn:Hm.
  cbn [fst snd] in *. subst stop.
  apply must_terminate_fields in Hm as (Hc & _).
  rewrite Hgen. cbn [bind].
  rewrite <- Hc in Hsel.
  destruct (perform_generation_size W st1 st2 Hsel Hgen) as [Hc2 Hp2].
  unfold log_info. rewrite Hc2, Hc, Hv.
  replace (length (population st2) <? 2) with true; [reflexivity|].
  symmetry. apply Nat.ltb_lt. rewrite Hp2, Hc2, Hc. exact Hp.
Qed.




End Edges.

(** ** The sampled minibatch *)

Lemma gather_spec (f : State -> list Q) (trs : list Transition) (vs : list Q) :
  gather (map f (map state trs)) (map action trs) = Ok vs ->
  Forall2 (fun tr v => nth_error (f (state tr)) (action tr) = Some v) trs vs.
Proof.
  revert vs. induction trs as [|tr trs IH]; intros vs H; cbn in H.
  - injection H as <-. constructor.
  - apply bind_Ok in H as (v & Hv & H).
    apply bind_Ok in H as (r & Hr & H). injection H as <-.
    constructor; [|now apply IH].
    destruct (nth_error (f (state tr)) (action tr)); [congruence | discriminate].
Qed.

Lemma masked_assign_length (dst : list Q) (mask : list bool) (vals r : list Q) :
  masked_assign dst mask vals = Ok r ->
  length mask = length dst /\ length r = length dst.
Proof.
  revert mask vals r. induction dst as [|d dst IH]; intros [|b mask] vals r H;
    cbn in H; try discriminate.
  - destruct vals; [|discriminate]. injection H as <-. now split.
  - destruct b.
    + destruct vals as [|v vals]; [discriminate|].
      apply bind_Ok in H as (r' & Hr & H). injection H as <-.
      apply IH in Hr as [H1 H2]. cbn. now rewrite H1, H2.
    + apply bind_Ok in H as (r' & Hr & H). injection H as <-.
      apply IH in Hr as [H1 H2]. cbn. now rewrite H1, H2.
Qed.

Lemma discounted_plus_length (values rewards expected : list Q) :
  discounted_plus values rewards = Ok expected ->
  length values = length rewards /\ length expected = length rewards.
Proof.
  revert rewards expected.
  induction values as [|v values IH]; intros [|r rewards] expected H;
    cbn in H; try discriminate.
  - injection H as <-. now split.
  - apply bind_Ok in H as (e & He & H). injection H as <-.
    apply IH in He as [H1 H2]. cbn. now rewrite H1, H2.
Qed.

Section Minibatches.
Context {Tree : Type} (W : Collaborators Tree).

Local Abbreviation Ind := (Individual Tree).

(** X15.  A minibatch that is built had exactly 128 sampled transitions (a
    sample of another size raises at the masked assignment); it holds one
    predicted value and one target value per transition, and the predicted
    value of a transition is the champion's action value for the
    transition's state at the transition's action. *)
Theorem minibatch_shapes (k : nat) (best : Ind) (heap : nat) (mem : Memory)
        (mb : Minibatch (Tree:=Tree)) :
  minibatch W k best heap mem = Ok mb ->
  length (transitions mb) = batch_size /\
  length (state_action_values mb) = batch_size /\
  length (expected_state_action_values mb) = batch_size /\
  non_final_mask mb = map (fun tr => is_not_None (next_state tr)) (transitions mb) /\
  Forall2 (fun tr v =>
             nth_error (output W (tree best) (consts best) (state tr)) (action tr)
             = Some v) (transitions mb) (state_action_values mb).
Proof.
  unfold minibatch. intros H.
  destruct (sample W k mem batch_size) as [|tr trs] eqn:Hs; [discriminate|].
  remember (tr :: trs) as sampled eqn:Hsampled.
  apply bind_Ok in H as (nf & Hnf & H). apply torch_cat_Ok in Hnf as [-> Hnf].
  apply bind_Ok in H as (sb & Hsb & H). apply torch_cat_Ok in Hsb as [-> _].
  apply bind_Ok in H as (ab & Hab & H). apply torch_cat_Ok in Hab as [-> _].
  apply bind_Ok in H as (rb & Hrb & H). apply torch_cat_Ok in Hrb as [-> _].
  apply bind_Ok in H as (predicted & Hpred & H).
  apply bind_Ok in H as (maxima & Hmax & H).
  apply bind_Ok in H as (values & Hval & H).
  apply bind_Ok in H as (expected & Hexp & H).
  injection H as <-.
  cbn [transitions state_action_values expected_state_action_values
       non_final_mask].
  apply masked_assign_length in Hval as [Hmask Hvalues].
  rewrite repeat_length in Hmask, Hvalues. rewrite !length_map in Hmask.
  apply discounted_plus_length in Hexp as [_ Hexp]. rewrite length_map in Hexp.
  unfold get_output_pt in Hpred. apply gather_spec in Hpred.
  pose proof (Forall2_length Hpred) as Hlen.
  repeat split; try assumption; try congruence.
  now rewrite map_map.
Qed.
End Minibatches.

(** ** Replay memory, missing elites and the archive along a run *)

Section Runs.
Context {Tree : Type} (W : Collaborators Tree).

Local Abbreviation Ind := (Individual Tree).

(** X16.  A completed generation puts the replay contributions of its
    offspring round, in the order of the offspring, in front of the replay
    memory it started with: every transition held before is still held. *)
Theorem generation_memory_is_prepended (st st' : Evolution Tree) :
  _perform_generation W st = Ok st' ->
  exists hard old new,
    harder (population st) = Ok hard /\
    memory st = Some old /\
    memory st' = Some new /\
    new = (concat (map ev_memory (offspring_results W st hard)) ++ old)%list /\
    (forall tr, In tr old -> In tr new).
Proof.
  intros H.
  apply perform_generation_Ok in H
    as (hard & E & O & mem & i & m & best & Hh & _ & HO & _ & _ & _ & ->).
  apply evaluate_offspring_Ok in HO as (_ & _ & _ & old & Hold & ->).
  exists hard, old. eexists. cbn [memory].
  repeat split; try eassumption; try reflexivity.
  intros tr Htr. apply in_or_app. now right.
Qed.

(** X17.  A run without seed whose elite count is 0 raises [IndexError] in
    its first generation: the elite round evaluates nothing, and
    [fitnesses[1]] of line 279 does not exist. *)
Theorem run_without_elites_raises
        (cfg : Config) (fuel : nat) (st1 : Evolution Tree) :
  elite_count cfg = 0%Z ->
  evolve_begin W (__init__ cfg []) = Ok st1 ->
  fst (_must_terminate W st1) = false ->
  evolve W (S fuel) (__init__ cfg []) = Some (Raise IndexError).
Proof.
  intros Hec Hbegin Hstop. unfold evolve. rewrite Hbegin.
  cbn [generational_loop].
  destruct (_must_terminate W st1) as [stop st2] eqn:Hm.
  cbn [fst] in Hstop. subst stop.
  apply must_terminate_fields in Hm as (Hc & Hp & _).
  unfold evolve_begin in Hbegin. cbn [population __init__] in Hbegin.
  assert (Hpos : pop_size cfg <> 0).
  { intros H0. rewrite initialize_nothing in Hbegin by exact H0. discriminate. }
  apply initialize_population_Ok in Hbegin as (Hc1 & Hl & _).
  cbn in Hc1, Hl.
  rewrite (zero_elites_raise W st2); [reflexivity | |].
  - rewrite Hc, Hc1. exact Hec.
  - rewrite Hp. apply nonempty_length. lia.
Qed.

(** X18.  Whenever a run stands at the head of its generational loop, its
    archive holds one entry per generation performed, and one more, the
    initial champion, when the run was started without seed. *)
Theorem archive_length_at_loop_heads
        (cfg : Config) (seed : list Ind) (st : Evolution Tree) :
  boundary W (__init__ cfg seed) st ->
  Z.of_nat (length (best_of_gens st)) =
  match seed with
  | [] => (num_gens st + 1)%Z
  | _ :: _ => num_gens st
  end.
Proof.
  intros Hb. destruct seed as [|x seed].
  - now apply (boundary_archive_unseeded W cfg).
  - apply (boundary_archive_seeded W cfg (x :: seed)); [discriminate | exact Hb].
Qed.
End Runs.

(** ** The further properties on concrete runs *)

(** X2, witness: the first offspring of the run with two individuals gets
    the fitness 1 of its own evaluation. *)
Lemma offspring_scored_by_position_witness :
  exists O mem x,
    evaluate_offspring world_a start_a false = Ok (O, mem) /\
    nth_error (produce_offspring world_a start_a) 0 = Some x /\
    nth_error O 0 =
    Some (scored (fitness_function world_a
                    (ROffspring (num_gens start_a) false) 0 x) x) /\
    option_map (@fitness nat) (nth_error O 0) = Some 1%Z.
Proof.
  destruct (evaluate_offspring world_a start_a false) as [[O mem]|e] eqn:HO;
    [|vm_compute in HO; discriminate HO].
  destruct (nth_error (produce_offspring world_a start_a) 0) as [x|] eqn:Hx;
    [|vm_compute in Hx; discriminate Hx].
  pose proof (offspring_scored_by_position world_a start_a false O mem 0 x HO Hx)
    as H.
  exists O, mem, x. repeat split; [exact H|].
  vm_compute in HO. injection HO as <- _. reflexivity.
Defined.


(** X4, witness: the initialisation of the run with two individuals. *)
Lemma initialisation_changes_only_champion_constants_witness :
  exists st' P i best c,
    evaluated_population world_a (__init__ config_a []) = Ok P /\
    _initialize_population world_a (__init__ config_a []) = Ok st' /\
    nth_error P i = Some best /\
    population st' = firstn i P ++ set_consts c best :: skipn (S i) P.
Proof.
  destruct (evaluated_population world_a (__init__ config_a [])) as [P|e] eqn:HP;
    [|vm_compute in HP; discriminate HP].
  destruct (_initialize_population world_a (__init__ config_a []))
    as [st'|e] eqn:H; [|vm_compute in H; discriminate H].
  destruct (initialisation_changes_only_champion_constants
              world_a (__init__ config_a []) st' P HP H)
    as (i & best & c & Hb & _ & _ & Hpop).
  exists st', P, i, best, c. repeat split; assumption.
Defined.

(** X5, witness: the same initialisation archives a copy of a member of
    the population. *)
Lemma initial_archive_dominates_population_witness :
  exists st' b x,
    _initialize_population world_a (__init__ config_a []) = Ok st' /\
    best_of_gens st' = [b] /\ In x (population st') /\ copy_of x b /\
    oid b < next_oid st'.
Proof.
  destruct (_initialize_population world_a (__init__ config_a []))
    as [st'|e] eqn:H; [|vm_compute in H; discriminate H].
  destruct (initial_archive_dominates_population
              world_a (__init__ config_a []) st' H)
    as (b & x & Harch & Hin & Hcopy & _ & Hnext).
  exists st', b, x. repeat split; try assumption; apply Hcopy.
Defined.

(** X6, witness: the first generation of the run with two individuals
    archives a champion of fitness 2 and appends 2 to [bestFitnesses]. *)
Lemma generation_archive_dominates_population_witness :
  exists st' b rest last,
    _perform_generation world_a start_a = Ok st' /\
    best_of_gens st' = best_of_gens start_a ++ [b] /\
    population st' = rest ++ [last] /\ copy_of last b /\
    bestFitnesses st' = bestFitnesses start_a ++ [fitness b].
Proof.
  destruct (_perform_generation world_a start_a) as [st'|e] eqn:H;
    [|vm_compute in H; discriminate H].
  destruct (generation_archive_dominates_population world_a start_a st' H)
    as (b & rest & last & Harch & Hpop & Hcopy & _ & _ & Hbest).
  exists st', b, rest, last. repeat split; try assumption; apply Hcopy.
Defined.

(** X7, witness: the population left by that generation has distinct
    identities below the next free address. *)
Lemma generation_allocates_fresh_objects_witness :
  exists st',
    _perform_generation world_a start_a = Ok st' /\
    NoDup (map (@oid nat) (population st')) /\
    heap_ok (population st') (next_oid st').
Proof.
  destruct (_perform_generation world_a start_a) as [st'|e] eqn:H;
    [|vm_compute in H; discriminate H].
  destruct (generation_allocates_fresh_objects world_a start_a st' H)
    as (Hnodup & Hheap & _).
  exists st'. repeat split; assumption.
Defined.

(** X8, witness: the run bounded by one generation returns with its
    generation bound reached. *)
Lemma evolve_returns_only_at_bound_witness :
  exists st',
    evolve world_a 2 (__init__ config_a []) = Some (Ok st') /\
    config st' = config_a /\
    bound_reached (max_gens config_a) (num_gens st') = true.
Proof.
  destruct (evolve world_a 2 (__init__ config_a [])) as [[st'|e]|] eqn:H;
    [ | vm_compute in H; discriminate H | vm_compute in H; discriminate H].
  destruct (evolve_returns_only_at_bound world_a 2 (__init__ config_a []) st' H)
    as (Hc & [Hb|[Hb|Hb]]).
  - discriminate Hb.
  - discriminate Hb.
  - exists st'. repeat split; assumption.
Defined.

(** X9, witness: with a generation bound of 0 and no other bound, three
    passes of fuel do not bring the run to a final state. *)
Lemma unbounded_run_never_returns_witness :
  match evolve world_a 3 (__init__ config_zero []) with
  | Some (Ok _) => False
  | _ => True
  end.
Proof.
  destruct (evolve world_a 3 (__init__ config_zero [])) as [[st'|e]|] eqn:H;
    [|exact I|exact I].
  apply (unbounded_run_never_returns world_a 3 (__init__ config_zero []) st');
    [now left | now left | now right | exact H].
Defined.

(** X10, witness: two individuals and an evaluation bound of 5; the run
    halts with 6 evaluations counted. *)
Lemma evolve_halts_at_max_evals_witness :
  exists st',
    evolve world_a 6 (__init__ config_evals []) = Some (Ok st') /\
    (5 <= num_evals st' < 5 + 2)%Z.
Proof.
  destruct (evolve_begin world_a (__init__ config_evals [])) as [st1|e] eqn:Hb;
    [|vm_compute in Hb; discriminate Hb].
  apply (evolve_halts_at_max_evals world_a config_evals 5 st1).
  - reflexivity.
  - reflexivity.
  - now left.
  - now left.
  - intros st. now apply cyclic_selection_length.
  - split; apply Z.leb_le; reflexivity.
  - discriminate.
  - exact Hb.
  - apply Nat.ltb_lt. reflexivity.
Defined.

(** X11, witness: a population size of 0. *)
Lemma empty_population_size_raises_witness :
  evolve world_a 1 (__init__ config_empty []) = Some (Raise IndexError).
Proof.
  apply (empty_population_size_raises world_a config_empty 1). reflexivity.
Defined.

(** X12, witness: one individual and a verbose report. *)
Lemma verbose_report_needs_two_individuals_witness :
  generational_loop world_a 1 (started world_a config_single)
  = Some (Raise StatisticsError).
Proof.
  destruct (_perform_generation world_a
              (snd (_must_terminate world_a (started world_a config_single))))
    as [st2|e] eqn:H; [|vm_compute in H; discriminate H].
  apply (verbose_report_needs_two_individuals
           world_a 0 (started world_a config_single) st2).
  - reflexivity.
  - apply Nat.ltb_lt. reflexivity.
  - reflexivity.
  - reflexivity.
  - exact H.
Defined.


(** X15, witness: the minibatch sampled from the memory of 129
    transitions. *)
Lemma minibatch_shapes_witness :
  exists mb,
    minibatch world_a 0 (champion refiner_r) (heap_next refiner_r) memory_r
      = Ok mb /\
    length (transitions mb) = batch_size /\
    length (state_action_values mb) = batch_size /\
    length (expected_state_action_values mb) = batch_size.
Proof.
  destruct (minibatch world_a 0 (champion refiner_r) (heap_next refiner_r)
              memory_r) as [mb|e] eqn:H; [|vm_compute in H; discriminate H].
  destruct (minibatch_shapes world_a 0 _ _ memory_r mb H)
    as (H1 & H2 & H3 & _).
  exists mb. repeat split; assumption.
Defined.

(** X16, witness: the first generation of the run with two individuals
    puts two offspring contributions in front of the two initial ones. *)
Lemma generation_memory_is_prepended_witness :
  exists st' old new,
    _perform_generation world_a start_a = Ok st' /\
    memory start_a = Some old /\ memory st' = Some new /\
    new = (concat (map ev_memory (offspring_results world_a start_a false))
           ++ old)%list.
Proof.
  destruct (_perform_generation world_a start_a) as [st'|e] eqn:H;
    [|vm_compute in H; discriminate H].
  destruct (generation_memory_is_prepended world_a start_a st' H)
    as (hard & old & new & Hh & Hold & Hnew & Heq & _).
  injection Hh as <-.
  exists st', old, new. repeat split; assumption.
Defined.

(** X17, witness: two individuals and an elitism of one tenth. *)
Lemma run_without_elites_raises_witness :
  evolve world_a 1 (__init__ config_no_elite []) = Some (Raise IndexError).
Proof.
  destruct (evolve_begin world_a (__init__ config_no_elite []))
    as [st1|e] eqn:Hb; [|vm_compute in Hb; discriminate Hb].
  apply (run_without_elites_raises world_a config_no_elite 0 st1).
  - reflexivity.
  - exact Hb.
  - vm_compute in Hb. injection Hb as <-. reflexivity.
Defined.

(** X18, witness: the run with two individuals and the seeded run, each
    when it enters its loop. *)
Lemma archive_length_at_loop_heads_witness :
  Z.of_nat (length (best_of_gens start_a)) = (num_gens start_a + 1)%Z /\
  match evolve_begin world_a seeded with
  | Ok st => Z.of_nat (length (best_of_gens st)) = num_gens st
  | Raise _ => False
  end.
Proof.
  split.
  - apply (archive_length_at_loop_heads world_a config_a [] start_a).
    apply boundary_first. reflexivity.
  - destruct (evolve_begin world_a seeded) as [st|e] eqn:H;
      [|vm_compute in H; discriminate H].
    apply (archive_length_at_loop_heads world_a config_a [blank 7; blank 8] st).
    apply boundary_first. exact H.
Defined.
